(** * mgrep: a concurrent substring search over a directory tree

    Shallow embedding of the two variants of the program:
    - [src/main.go]: the collector hands the result list to [main] over an
      unbuffered channel, [main] reads it with a blocking receive;
    - [src/unnamed/part_000]: the collector holds a mutex while it runs and
      leaves the result list in a channel of capacity 1, [main] takes the mutex
      and reads the channel with a non-blocking [select].

    Goroutines are modelled by an interleaving semantics: a state holds the
    shared objects (wait group, channels, mutex), the program counter of [main],
    of the collector and of every live task, and [next] lists the states that
    one scheduling step can lead to. *)

From Stdlib Require Import List ZArith Lia Bool Arith.
From Stdlib Require Import Ascii String DecimalString.
From Stdlib Require Import Permutation.
Import ListNotations.

Local Open Scope string_scope.
Local Open Scope list_scope.

(** Go's [+] on strings; [++] stays the append of lists. *)
Local Infix "^^" := String.append (at level 60, right associativity).

(** ** Strings: the parts of Go's [strings], [fmt] and [path/filepath] in use *)

Definition LF : ascii := "010"%char.
Definition nl : string := String LF EmptyString.

(** [strings.Split(s, sep)] for a separator of one byte: the pieces between
    the occurrences of [sep]; there is always at least one piece. *)
Fixpoint Split (s : string) (sep : ascii) : list string :=
  match s with
  | EmptyString => [EmptyString]
  | String c rest =>
      if Ascii.eqb c sep then EmptyString :: Split rest sep
      else match Split rest sep with
           | piece :: pieces => String c piece :: pieces
           | [] => [String c EmptyString]
           end
  end.

(** [strings.Join(pieces, sep)], used to state what [Split] returns. *)
Fixpoint Join (pieces : list string) (sep : ascii) : string :=
  match pieces with
  | [] => EmptyString
  | [piece] => piece
  | piece :: rest => piece ^^ String sep (Join rest sep)
  end.

(** [strings.Contains(s, substr)]: [substr] occurs in [s] at some offset;
    bytes are compared as they are. *)
Fixpoint Contains (s substr : string) : bool :=
  if String.prefix substr s then true
  else match s with
       | EmptyString => false
       | String _ rest => Contains rest substr
       end.

(** A string has no byte [c]. *)
Fixpoint lacks (c : ascii) (s : string) : bool :=
  match s with
  | EmptyString => true
  | String d rest => negb (Ascii.eqb d c) && lacks c rest
  end.

(** [fmt.Sprintf("%v", n)] for an [int]. *)
Definition format_int (n : Z) : string := NilZero.string_of_int (Z.to_int n).

(** The separator of [path/filepath] on Unix. *)
Definition Separator : ascii := "/"%char.

(** [filepath.Clean] meets the element [elem] of a path, [kept] being the
    elements it has kept so far, the last one first: an empty element and
    [.] are dropped; [..] removes the element before it, is dropped at the
    top of a rooted path, and is kept at the front of any other path. *)
Definition clean_element (rooted : bool) (kept : list string) (elem : string)
  : list string :=
  if String.eqb elem "" then kept
  else if String.eqb elem "." then kept
  else if String.eqb elem ".." then
    match kept with
    | last :: before => if String.eqb last ".." then elem :: kept else before
    | [] => if rooted then [] else [elem]
    end
  else elem :: kept.

(** [filepath.Clean(path)] on Unix: the shortest path that names the same
    file by its text alone; [.] for the empty path. *)
Definition filepath_Clean (path : string) : string :=
  match path with
  | EmptyString => "."
  | String c _ =>
      let rooted := Ascii.eqb c Separator in
      let kept := rev (fold_left (clean_element rooted) (Split path Separator) []) in
      if rooted then String Separator (Join kept Separator)
      else match kept with
           | [] => "."
           | _ :: _ => Join kept Separator
           end
  end.

(** [filepath.Join(dir, name)] on Unix: the elements that are not empty,
    from the first one on, joined by the separator, and the result cleaned;
    the empty string when both are empty. *)
Definition filepath_Join (dir name : string) : string :=
  match dir, name with
  | EmptyString, EmptyString => EmptyString
  | EmptyString, String _ _ => filepath_Clean name
  | String _ _, _ => filepath_Clean (dir ^^ String Separator name)
  end.

Arguments filepath_Join : simpl never.

(** ** Matches *)

Record FoundString := mkFound {
  path : string;
  index : Z;
  line : string
}.

(** [func (fs FoundString) String() string] *)
Definition FoundString_String (fs : FoundString) : string :=
  let result := "Hit found in file " ^^ path fs ^^ nl in
  let result := result ^^ ("Line " ^^ format_int (index fs) ^^ ": " ^^ nl) in
  let result := result ^^ (line fs ^^ nl) in
  result.

(** [fmt.Println(hit)]: the value's [String()] and a newline. *)
Definition Println_hit (hit : FoundString) : string :=
  FoundString_String hit ^^ nl.

(** [fmt.Println(hits)] for a slice: the elements' [String()] separated by
    spaces, in brackets, and a newline. *)
Fixpoint spaced (l : list string) : string :=
  match l with
  | [] => EmptyString
  | [x] => x
  | x :: rest => x ^^ " " ^^ spaced rest
  end.

Definition Println_hits (hits : list FoundString) : string :=
  "[" ^^ spaced (map FoundString_String hits) ^^ "]" ^^ nl.

(** The [for index, line := range lines] loop of [parseFile], begun at
    [index]: the values it sends on [found], in the order it sends them. *)
Fixpoint scan_from (p searchString : string) (index : Z) (lines : list string)
  : list FoundString :=
  match lines with
  | [] => []
  | l :: rest =>
      if Contains l searchString
      then mkFound p index l :: scan_from p searchString (index + 1) rest
      else scan_from p searchString (index + 1) rest
  end.

(** What [parseFile] sends for a file whose bytes are [fileData]. *)
Definition scan (p searchString fileData : string) : list FoundString :=
  scan_from p searchString 0 (Split fileData LF).

(** ** The file system

    The tree that the search directory names, as [os.ReadDir] and
    [os.ReadFile] show it: [None] is a read that returns an error.  The tree
    does not change during a run, so [file.Info()] succeeds on every entry that
    [os.ReadDir] returned. *)
Unset Elimination Schemes.
Inductive node :=
| File (name : string) (data : option string)
| Dir (name : string) (entries : option (list node)).
Set Elimination Schemes.

Definition Name (f : node) : string :=
  match f with File name _ => name | Dir name _ => name end.

Definition IsDir (f : node) : bool :=
  match f with File _ _ => false | Dir _ _ => true end.

(** ** Task goroutines: [parseDir] and [parseFile]

    A task is the goroutine's position in its function and its local
    variables. *)
Inductive task :=
| ParseFile (p searchString : string) (f : node)
    (* parseFile(p, searchString), at os.ReadFile(p) *)
| FileLoop (p searchString : string) (index : Z) (lines : list string)
    (* parseFile, in the range loop over the lines left *)
| ParseDir (p searchString : string) (d : node)
    (* parseDir(p, searchString), at os.ReadDir(p) *)
| DirLoop (p searchString : string) (directoryList : list node)
    (* parseDir, in the range loop over the entries left *)
| DirGo (p searchString : string) (file : node) (rest : list node).
    (* parseDir, after wg.Add(1), at the go statement for [file] *)

(** What a goroutine does next to the shared objects. *)
Inductive action :=
| Local (t' : task)                     (* a step on its own variables *)
| WgAdd (t' : task)                     (* wg.Add(1) *)
| Spawn (child : task) (t' : task)      (* go child *)
| SendFound (m : FoundString) (t' : task)  (* found <- m *)
| SendError                             (* check(err) with err != nil: errors <- e *)
| WgDone.                               (* return: the deferred wg.Done() *)

(** The goroutine that [parseDir] starts for the entry [file] of directory [p]. *)
Definition child_of (p searchString : string) (file : node) : task :=
  let completePath := filepath_Join p (Name file) in
  if IsDir file then ParseDir completePath searchString file
  else ParseFile completePath searchString file.

(** [parseFile] and [parseDir], one step at a time. *)
Definition task_action (t : task) : action :=
  match t with
  | ParseFile p s (File _ (Some fileData)) => Local (FileLoop p s 0 (Split fileData LF))
  | ParseFile _ _ _ => SendError
  | FileLoop p s index [] => WgDone
  | FileLoop p s index (l :: rest) =>
      if Contains l s
      then SendFound (mkFound p index l) (FileLoop p s (index + 1) rest)
      else Local (FileLoop p s (index + 1) rest)
  | ParseDir p s (Dir _ (Some directoryList)) => Local (DirLoop p s directoryList)
  | ParseDir _ _ _ => SendError
  | DirLoop p s [] => WgDone
  | DirLoop p s (file :: rest) => WgAdd (DirGo p s file rest)
  | DirGo p s file rest => Spawn (child_of p s file) (DirLoop p s rest)
  end.

(** ** [main] and [collectStrings] *)

(** The two programs. *)
Inductive variant :=
| Unbuffered   (* src/main.go *)
| Mutex.       (* src/unnamed/part_000 *)

Inductive main_pc :=
| MStart                                  (* go collectStrings(..) *)
| MArgs                                   (* os.Args[1]; os.Args[2] *)
| MAdd (searchString searchDir : string)  (* wg.Add(1) *)
| MGo (searchString searchDir : string)   (* go parseDir(searchDir, searchString) *)
| MWait                                   (* wg.Wait() *)
| MClose                                  (* close(found) *)
| MRecv                                   (* hits := <-results          (main.go) *)
| MPrint (rest : list FoundString)        (* range loop over hits       (main.go) *)
| MLock                                   (* resultsLock.Lock()         (part_000) *)
| MSelect                                 (* select on results/default  (part_000) *)
| MExit                                   (* main returned *)
| MPanic (i len : nat).                   (* index out of range [i] with length len *)

Inductive coll_pc :=
| CIdle       (* not started *)
| CLock       (* lock.Lock()                          (part_000) *)
| CLoop       (* value, ok := <-found *)
| CPublish    (* if len(list) > 0 { results <- list } *)
| CUnlock     (* the deferred lock.Unlock()           (part_000) *)
| CEnd.       (* returned *)

Record state := mkState {
  wg : Z;                                 (* counter of the WaitGroup *)
  found_closed : bool;                    (* close(found) has run *)
  results : option (list FoundString);    (* slot of the results channel of capacity 1 *)
  resultsLock : bool;                     (* the mutex is held *)
  main : main_pc;
  hits : option (list FoundString);       (* main's variable hits, once received *)
  collector : coll_pc;
  list_ : list FoundString;               (* collectStrings' variable list *)
  tasks : list task;                      (* the live parseDir/parseFile goroutines *)
  stdout : list string;                   (* what fmt.Println wrote, call by call *)
  registered : nat;                       (* history: calls of wg.Add(1) *)
  completed : nat;                        (* history: calls of wg.Done() *)
  sent : list FoundString                 (* history: sends completed on found *)
}.

Definition init : state :=
  mkState 0 false None false MStart None CIdle [] [] [] 0 0 [].

(** The process status once [main] is over: 0 after a return, 2 after a
    runtime panic. *)
Definition exit_status (s : state) : option Z :=
  match main s with
  | MExit => Some 0%Z
  | MPanic _ _ => Some 2%Z
  | _ => None
  end.

(** The text of Go's run-time error for [a[i]] with [i >= len(a)]. *)
Definition panic_message (i len : nat) : string :=
  "runtime error: index out of range [" ^^ format_int (Z.of_nat i)
  ^^ "] with length " ^^ format_int (Z.of_nat len).

Section Program.

Variable v : variant.
Variable Args : list string.    (* os.Args *)
Variable root : node.           (* what the file system holds at os.Args[2] *)

Definition set_main (s : state) (pc : main_pc) : state :=
  mkState (wg s) (found_closed s) (results s) (resultsLock s) pc (hits s)
    (collector s) (list_ s) (tasks s) (stdout s) (registered s) (completed s) (sent s).

Definition set_collector (s : state) (pc : coll_pc) : state :=
  mkState (wg s) (found_closed s) (results s) (resultsLock s) (main s) (hits s)
    pc (list_ s) (tasks s) (stdout s) (registered s) (completed s) (sent s).

Definition set_tasks (s : state) (ts : list task) : state :=
  mkState (wg s) (found_closed s) (results s) (resultsLock s) (main s) (hits s)
    (collector s) (list_ s) ts (stdout s) (registered s) (completed s) (sent s).

(** [func main()], one step at a time. *)
Definition main_next (s : state) : list state :=
  match main s with
  | MStart =>
      [set_main (set_collector s match v with Unbuffered => CLoop | Mutex => CLock end) MArgs]
  | MArgs =>
      match nth_error Args 1 with
      | None => [set_main s (MPanic 1 (List.length Args))]
      | Some searchString =>
          match nth_error Args 2 with
          | None => [set_main s (MPanic 2 (List.length Args))]
          | Some searchDir => [set_main s (MAdd searchString searchDir)]
          end
      end
  | MAdd searchString searchDir =>
      [mkState (wg s + 1) (found_closed s) (results s) (resultsLock s)
         (MGo searchString searchDir) (hits s) (collector s) (list_ s) (tasks s)
         (stdout s) (S (registered s)) (completed s) (sent s)]
  | MGo searchString searchDir =>
      [set_main (set_tasks s (tasks s ++ [ParseDir searchDir searchString root])) MWait]
  | MWait =>
      if (wg s =? 0)%Z then [set_main s MClose] else []
  | MClose =>
      [mkState (wg s) true (results s) (resultsLock s)
         match v with Unbuffered => MRecv | Mutex => MLock end
         (hits s) (collector s) (list_ s) (tasks s)
         (stdout s) (registered s) (completed s) (sent s)]
  | MRecv =>
      (* the receive meets the collector's send on the unbuffered channel *)
      match collector s, list_ s with
      | CPublish, _ :: _ =>
          [mkState (wg s) (found_closed s) (results s) (resultsLock s)
             (MPrint (list_ s)) (Some (list_ s)) CEnd (list_ s) (tasks s)
             (stdout s) (registered s) (completed s) (sent s)]
      | _, _ => []
      end
  | MPrint [] => [set_main s MExit]
  | MPrint (hit :: rest) =>
      [mkState (wg s) (found_closed s) (results s) (resultsLock s)
         (MPrint rest) (hits s) (collector s) (list_ s) (tasks s)
         (stdout s ++ [Println_hit hit]) (registered s) (completed s) (sent s)]
  | MLock =>
      if resultsLock s then []
      else [mkState (wg s) (found_closed s) (results s) true
              MSelect (hits s) (collector s) (list_ s) (tasks s)
              (stdout s) (registered s) (completed s) (sent s)]
  | MSelect =>
      match results s with
      | Some l =>
          [mkState (wg s) (found_closed s) None (resultsLock s)
             MExit (Some l) (collector s) (list_ s) (tasks s)
             (stdout s ++ [Println_hits l]) (registered s) (completed s) (sent s)]
      | None => [set_main s MExit]
      end
  | MExit => []
  | MPanic _ _ => []
  end.

(** [func collectStrings(..)], one step at a time.  A receive from [found]
    that meets a sender is the sender's step ([SendFound] below);
    [time.Sleep] only delays the [append] that follows it. *)
Definition collector_next (s : state) : list state :=
  match collector s with
  | CIdle => []
  | CLock =>
      if resultsLock s then []
      else [mkState (wg s) (found_closed s) (results s) true
              (main s) (hits s) CLoop (list_ s) (tasks s)
              (stdout s) (registered s) (completed s) (sent s)]
  | CLoop =>
      if found_closed s then [set_collector s CPublish] else []
  | CPublish =>
      match list_ s, v with
      | [], Unbuffered => [set_collector s CEnd]
      | [], Mutex => [set_collector s CUnlock]
      | _ :: _, Unbuffered => []   (* the send meets main's receive: see MRecv *)
      | _ :: _, Mutex =>
          match results s with
          | None =>
              [mkState (wg s) (found_closed s) (Some (list_ s)) (resultsLock s)
                 (main s) (hits s) CUnlock (list_ s) (tasks s)
                 (stdout s) (registered s) (completed s) (sent s)]
          | Some _ => []
          end
      end
  | CUnlock =>
      [mkState (wg s) (found_closed s) (results s) false
         (main s) (hits s) CEnd (list_ s) (tasks s)
         (stdout s) (registered s) (completed s) (sent s)]
  | CEnd => []
  end.

(** The effect of the action of the task between [pre] and [post]. *)
Definition task_apply (s : state) (pre post : list task) (a : action) : list state :=
  match a with
  | Local t' => [set_tasks s (pre ++ t' :: post)]
  | WgAdd t' =>
      [mkState (wg s + 1) (found_closed s) (results s) (resultsLock s)
         (main s) (hits s) (collector s) (list_ s) (pre ++ t' :: post)
         (stdout s) (S (registered s)) (completed s) (sent s)]
  | Spawn child t' => [set_tasks s (pre ++ t' :: post ++ [child])]
  | SendFound m t' =>
      match collector s, found_closed s with
      | CLoop, false =>
          [mkState (wg s) (found_closed s) (results s) (resultsLock s)
             (main s) (hits s) (collector s) (list_ s ++ [m]) (pre ++ t' :: post)
             (stdout s) (registered s) (completed s) (sent s ++ [m])]
      | _, _ => []
      end
  | SendError => []   (* nothing ever receives from errors *)
  | WgDone =>
      [mkState (wg s - 1) (found_closed s) (results s) (resultsLock s)
         (main s) (hits s) (collector s) (list_ s) (pre ++ post)
         (stdout s) (registered s) (S (completed s)) (sent s)]
  end.

Fixpoint tasks_from (s : state) (pre l : list task) : list state :=
  match l with
  | [] => []
  | t :: post => task_apply s pre post (task_action t) ++ tasks_from s (pre ++ [t]) post
  end.

Definition tasks_next (s : state) : list state := tasks_from s [] (tasks s).

(** The states one scheduling step away.  When [main] is over the process is
    over, whatever the other goroutines were doing. *)
Definition next (s : state) : list state :=
  match exit_status s with
  | Some _ => []
  | None => main_next s ++ collector_next s ++ tasks_next s
  end.

Definition step (s s' : state) : Prop := In s' (next s).

Inductive reachable : state -> Prop :=
| reach_init : reachable init
| reach_step s s' : reachable s -> step s s' -> reachable s'.

(** A run under a schedule: at each step the scheduler picks one of the
    enabled moves by its position in [next]; a pick that is out of range
    leaves the state as it is. *)
Fixpoint run (sched : list nat) (s : state) : state :=
  match sched with
  | [] => s
  | k :: rest =>
      match nth_error (next s) k with
      | Some s' => run rest s'
      | None => run rest s
      end
  end.

(** No goroutine can move. *)
Definition halted (s : state) : bool :=
  match next s with [] => true | _ => false end.

(** Every goroutine that is left waits for another one: Go's run time reports
    "all goroutines are asleep - deadlock!". *)
Definition deadlocked (s : state) : bool :=
  halted s && match exit_status s with None => true | Some _ => false end.

End Program.

(** ** What a tree holds *)

(** The matches of the entry [f] of directory [p], and of what lies below
    it: for a file the lines that [parseFile] sends, in file order, for a
    directory those of its entries in listing order.  A read that fails
    gives none. *)
Fixpoint entry_matches (searchString : string) (f : node) (p : string)
  : list FoundString :=
  match f with
  | File name (Some fileData) => scan (filepath_Join p name) searchString fileData
  | File _ None => []
  | Dir name (Some entries) =>
      flat_map (fun e => entry_matches searchString e (filepath_Join p name)) entries
  | Dir _ None => []
  end.

Definition entries_matches (p searchString : string) (entries : list node)
  : list FoundString :=
  flat_map (fun e => entry_matches searchString e p) entries.

(** The matches that a task has still to send, itself or through the
    goroutines it is going to start. *)
Definition pending (t : task) : list FoundString :=
  match t with
  | ParseFile p s (File _ (Some fileData)) => scan p s fileData
  | ParseFile _ _ _ => []
  | FileLoop p s index lines => scan_from p s index lines
  | ParseDir p s (Dir _ (Some entries)) => entries_matches p s entries
  | ParseDir _ _ _ => []
  | DirLoop p s entries => entries_matches p s entries
  | DirGo p s file rest => entry_matches s file p ++ entries_matches p s rest
  end.

(** All the matches of the tree [d] searched as directory [searchDir]. *)
Definition tree_matches (searchString searchDir : string) (d : node)
  : list FoundString :=
  pending (ParseDir searchDir searchString d).

(** The number of entries of a tree, files and directories, the tree's own
    top included. *)
Fixpoint size (f : node) : nat :=
  match f with
  | File _ _ => 1
  | Dir _ None => 1
  | Dir _ (Some entries) => S (list_sum (map size entries))
  end.

Definition sizes (entries : list node) : nat := list_sum (map size entries).

(** The entries below [f]. *)
Definition below (f : node) : nat := pred (size f).

(** The units of work that a task has still to register. *)
Definition unregistered (t : task) : nat :=
  match t with
  | ParseFile _ _ _ => 0
  | FileLoop _ _ _ _ => 0
  | ParseDir _ _ d => below d
  | DirLoop _ _ entries => sizes entries
  | DirGo _ _ file rest => below file + sizes rest
  end.

(** The registered units of work that a task stands for: its own, and in
    [DirGo] the one of the goroutine it is about to start. *)
Definition owed (t : task) : nat :=
  match t with
  | DirGo _ _ _ _ => 2
  | _ => 1
  end.

(** Some read in the tree fails. *)
Fixpoint unreadable (f : node) : bool :=
  match f with
  | File _ None => true
  | File _ (Some _) => false
  | Dir _ None => true
  | Dir _ (Some entries) => existsb unreadable entries
  end.

(** The task, or a goroutine it is going to start, meets a read that fails. *)
Definition doomed (t : task) : bool :=
  match t with
  | ParseFile _ _ f => match f with File _ (Some _) => false | _ => true end
  | FileLoop _ _ _ _ => false
  | ParseDir _ _ d => match d with Dir _ (Some entries) => existsb unreadable entries | _ => true end
  | DirLoop _ _ entries => existsb unreadable entries
  | DirGo _ _ file rest => unreadable file || existsb unreadable rest
  end.

(** The tree can be searched as a directory without a read that fails. *)
Definition searchable (d : node) : bool := negb (doomed (ParseDir "" "" d)).

(** ** The invariant of the runs

    What holds of every reachable state, by the position of [main]. *)

Section Invariant.

Variable v : variant.
Variable Args : list string.
Variable root : node.

Definition searchString_of : string := nth 1 Args EmptyString.
Definition searchDir_of : string := nth 2 Args EmptyString.

(** What [collectStrings] publishes for its list: nothing when it is empty. *)
Definition published (l : list FoundString) : option (list FoundString) :=
  match l with [] => None | _ :: _ => Some l end.

(** The collector runs, or (part_000) is about to take the free mutex. *)
Definition collecting (s : state) : Prop :=
  match v with
  | Unbuffered => collector s = CLoop /\ resultsLock s = false
  | Mutex =>
      (collector s = CLock /\ resultsLock s = false /\ list_ s = [])
      \/ (collector s = CLoop /\ resultsLock s = true)
  end.

(** Nothing has been closed, published, received or printed. *)
Definition unpublished (s : state) : Prop :=
  found_closed s = false /\ results s = None /\ hits s = None /\ stdout s = [].

(** No task has been started. *)
Definition untouched (s : state) : Prop :=
  tasks s = [] /\ list_ s = [] /\ completed s = 0.

(** The bookkeeping while tasks run. *)
Definition accounted (s : state) : Prop :=
  wg s = Z.of_nat (list_sum (map owed (tasks s)))
  /\ registered s = completed s + list_sum (map owed (tasks s))
  /\ registered s + list_sum (map unregistered (tasks s)) = size root
  /\ Permutation (tree_matches searchString_of searchDir_of root)
       (list_ s ++ flat_map pending (tasks s))
  /\ existsb doomed (tasks s) = negb (searchable root).

(** Every task is over. *)
Definition finished (s : state) : Prop :=
  tasks s = [] /\ wg s = 0%Z
  /\ registered s = size root /\ completed s = size root
  /\ Permutation (tree_matches searchString_of searchDir_of root) (list_ s)
  /\ searchable root = true.

(** The collector of part_000 after [close(found)], while [main] waits for
    the mutex. *)
Definition draining (s : state) : Prop :=
  (collector s = CLock /\ resultsLock s = false /\ list_ s = [] /\ results s = None)
  \/ (collector s = CLoop /\ resultsLock s = true /\ results s = None)
  \/ (collector s = CPublish /\ resultsLock s = true /\ results s = None)
  \/ (collector s = CUnlock /\ resultsLock s = true /\ results s = published (list_ s))
  \/ (collector s = CEnd /\ resultsLock s = false /\ results s = published (list_ s)).

Definition Inv (s : state) : Prop :=
  sent s = list_ s /\
  match main s with
  | MStart => s = init
  | MArgs =>
      collecting s /\ unpublished s /\ untouched s /\ wg s = 0%Z /\ registered s = 0
  | MPanic i len =>
      collecting s /\ unpublished s /\ untouched s /\ wg s = 0%Z /\ registered s = 0
      /\ len = List.length Args /\ len < 3 /\ i = (if Nat.leb len 1 then 1 else 2)
  | MAdd searchString searchDir =>
      nth_error Args 1 = Some searchString /\ nth_error Args 2 = Some searchDir
      /\ collecting s /\ unpublished s /\ untouched s /\ wg s = 0%Z /\ registered s = 0
  | MGo searchString searchDir =>
      nth_error Args 1 = Some searchString /\ nth_error Args 2 = Some searchDir
      /\ collecting s /\ unpublished s /\ untouched s /\ wg s = 1%Z /\ registered s = 1
  | MWait => 3 <= List.length Args /\ collecting s /\ unpublished s /\ accounted s
  | MClose => 3 <= List.length Args /\ collecting s /\ unpublished s /\ finished s
  | MRecv =>
      v = Unbuffered /\ 3 <= List.length Args /\ finished s
      /\ found_closed s = true /\ results s = None /\ hits s = None /\ stdout s = []
      /\ resultsLock s = false
      /\ (collector s = CLoop \/ collector s = CPublish
          \/ (collector s = CEnd /\ list_ s = []))
  | MPrint rest =>
      v = Unbuffered /\ 3 <= List.length Args /\ finished s
      /\ found_closed s = true /\ results s = None /\ hits s = Some (list_ s)
      /\ resultsLock s = false /\ collector s = CEnd /\ list_ s <> []
      /\ map Println_hit (list_ s) = stdout s ++ map Println_hit rest
  | MLock =>
      v = Mutex /\ 3 <= List.length Args /\ finished s
      /\ found_closed s = true /\ hits s = None /\ stdout s = [] /\ draining s
  | MSelect =>
      v = Mutex /\ 3 <= List.length Args /\ finished s
      /\ found_closed s = true /\ hits s = None /\ stdout s = []
      /\ resultsLock s = true
      /\ ((collector s = CLock /\ list_ s = [] /\ results s = None)
          \/ (collector s = CEnd /\ results s = published (list_ s)))
  | MExit =>
      3 <= List.length Args /\ finished s /\ found_closed s = true
      /\ match v with
         | Unbuffered =>
             hits s = Some (list_ s) /\ list_ s <> [] /\ collector s = CEnd
             /\ stdout s = map Println_hit (list_ s)
         | Mutex =>
             resultsLock s = true /\ results s = None
             /\ hits s = published (list_ s)
             /\ stdout s = match list_ s with [] => [] | _ :: _ => [Println_hits (list_ s)] end
             /\ ((collector s = CLock /\ list_ s = []) \/ collector s = CEnd)
         end
  end.

End Invariant.

(** ** A bound on the length of the runs *)

(** The steps that the goroutine of an entry, and the goroutines below it,
    can still take. *)
Fixpoint entry_rank (f : node) : nat :=
  match f with
  | File _ (Some fileData) => 2 + 2 * List.length (Split fileData LF)
  | File _ None => 0
  | Dir _ (Some entries) => 2 + list_sum (map (fun e => 2 + entry_rank e) entries)
  | Dir _ None => 0
  end.

Definition entries_rank (entries : list node) : nat :=
  list_sum (map (fun e => 2 + entry_rank e) entries).

Definition task_rank (t : task) : nat :=
  match t with
  | ParseFile _ _ (File _ (Some fileData)) => 2 + 2 * List.length (Split fileData LF)
  | ParseFile _ _ _ => 0
  | FileLoop _ _ _ lines => 1 + 2 * List.length lines
  | ParseDir _ _ (Dir _ (Some entries)) => 2 + entries_rank entries
  | ParseDir _ _ _ => 0
  | DirLoop _ _ entries => 1 + entries_rank entries
  | DirGo _ _ file rest => 2 + entry_rank file + entries_rank rest
  end.

Definition collector_rank (pc : coll_pc) : nat :=
  match pc with
  | CIdle => 0
  | CLock => 4
  | CLoop => 3
  | CPublish => 2
  | CUnlock => 1
  | CEnd => 0
  end.

Section Rank.

Variable root : node.

Definition main_rank (s : state) : nat :=
  let rest := List.length (list_ s) in
  let tree := task_rank (ParseDir EmptyString EmptyString root) in
  match main s with
  | MStart => 20 + rest + tree
  | MArgs => 10 + rest + tree
  | MAdd _ _ => 9 + rest + tree
  | MGo _ _ => 8 + rest + tree
  | MWait => 4 + rest
  | MClose => 3 + rest
  | MRecv => 2 + rest
  | MPrint l => 1 + List.length l
  | MLock => 2
  | MSelect => 1
  | MExit => 0
  | MPanic _ _ => 0
  end.

(** Every step makes [rank] smaller. *)
Definition rank (s : state) : nat :=
  main_rank s + collector_rank (collector s) + list_sum (map task_rank (tasks s)).

End Rank.

Section Runs.

Variable v : variant.
Variable Args : list string.
Variable root : node.

(** Every run from [s] is finite and ends in a state where no goroutine can
    move and [P] holds. *)
Inductive ends_in (P : state -> Prop) (s : state) : Prop :=
| ends_here : halted v Args root s = true -> P s -> ends_in P s
| ends_later :
    halted v Args root s = false ->
    (forall s', step v Args root s s' -> ends_in P s') ->
    ends_in P s.

End Runs.

(** ** Exploring the runs of one input

    For a given tree and argument list the reachable states are few: they can
    be listed, and a property checked on each of them. *)

Definition option_eqb {A} (eqb : A -> A -> bool) (a b : option A) : bool :=
  match a, b with
  | None, None => true
  | Some x, Some y => eqb x y
  | _, _ => false
  end.

Definition list_eqb {A} (eqb : A -> A -> bool) : list A -> list A -> bool :=
  fix go (a b : list A) : bool :=
    match a, b with
    | [], [] => true
    | x :: a', y :: b' => eqb x y && go a' b'
    | _, _ => false
    end.

Definition FoundString_eqb (a b : FoundString) : bool :=
  String.eqb (path a) (path b) && Z.eqb (index a) (index b)
  && String.eqb (line a) (line b).

Fixpoint node_eqb (a b : node) : bool :=
  match a, b with
  | File n d, File n' d' => String.eqb n n' && option_eqb String.eqb d d'
  | Dir n None, Dir n' None => String.eqb n n'
  | Dir n (Some es), Dir n' (Some es') => String.eqb n n' && list_eqb node_eqb es es'
  | _, _ => false
  end.

Definition task_eqb (a b : task) : bool :=
  match a, b with
  | ParseFile p s f, ParseFile p' s' f' =>
      String.eqb p p' && String.eqb s s' && node_eqb f f'
  | FileLoop p s i ls, FileLoop p' s' i' ls' =>
      String.eqb p p' && String.eqb s s' && Z.eqb i i' && list_eqb String.eqb ls ls'
  | ParseDir p s d, ParseDir p' s' d' =>
      String.eqb p p' && String.eqb s s' && node_eqb d d'
  | DirLoop p s es, DirLoop p' s' es' =>
      String.eqb p p' && String.eqb s s' && list_eqb node_eqb es es'
  | DirGo p s f es, DirGo p' s' f' es' =>
      String.eqb p p' && String.eqb s s' && node_eqb f f' && list_eqb node_eqb es es'
  | _, _ => false
  end.

Definition main_pc_eqb (a b : main_pc) : bool :=
  match a, b with
  | MStart, MStart | MArgs, MArgs | MWait, MWait | MClose, MClose
  | MRecv, MRecv | MLock, MLock | MSelect, MSelect | MExit, MExit => true
  | MAdd s d, MAdd s' d' | MGo s d, MGo s' d' => String.eqb s s' && String.eqb d d'
  | MPrint l, MPrint l' => list_eqb FoundString_eqb l l'
  | MPanic i n, MPanic i' n' => Nat.eqb i i' && Nat.eqb n n'
  | _, _ => false
  end.

Definition coll_pc_eqb (a b : coll_pc) : bool :=
  match a, b with
  | CIdle, CIdle | CLock, CLock | CLoop, CLoop
  | CPublish, CPublish | CUnlock, CUnlock | CEnd, CEnd => true
  | _, _ => false
  end.

Definition state_eqb (a b : state) : bool :=
  Z.eqb (wg a) (wg b) && Bool.eqb (found_closed a) (found_closed b)
  && option_eqb (list_eqb FoundString_eqb) (results a) (results b)
  && Bool.eqb (resultsLock a) (resultsLock b)
  && main_pc_eqb (main a) (main b)
  && option_eqb (list_eqb FoundString_eqb) (hits a) (hits b)
  && coll_pc_eqb (collector a) (collector b)
  && list_eqb FoundString_eqb (list_ a) (list_ b)
  && list_eqb task_eqb (tasks a) (tasks b)
  && list_eqb String.eqb (stdout a) (stdout b)
  && Nat.eqb (registered a) (registered b)
  && Nat.eqb (completed a) (completed b)
  && list_eqb FoundString_eqb (sent a) (sent b).

Definition known (s : state) (seen : list state) : bool := existsb (state_eqb s) seen.

Section Explore.

Variable v : variant.
Variable Args : list string.
Variable root : node.

(** The states reached from [frontier], added to [seen]; [None] when [fuel]
    runs out first. *)
Fixpoint explore (fuel : nat) (seen frontier : list state) : option (list state) :=
  match fuel with
  | 0 => None
  | S fuel' =>
      match frontier with
      | [] => Some seen
      | s :: rest =>
          if known s seen then explore fuel' seen rest
          else explore fuel' (s :: seen) (next v Args root s ++ rest)
      end
  end.

(** [seen] holds the initial state and every successor of its states. *)
Definition closed (seen : list state) : bool :=
  known init seen
  && forallb (fun s => forallb (fun s' => known s' seen) (next v Args root s)) seen.

End Explore.

(** ** Lines and their indices, as the specification names them *)

(** The lines of a file with their indices, counted from [index]. *)
Fixpoint numbered (index : Z) (lines : list string) : list (Z * string) :=
  match lines with
  | [] => []
  | l :: rest => (index, l) :: numbered (index + 1) rest
  end.

(** The match that [parseFile] builds for a numbered line of file [p]. *)
Definition found_at (p : string) (il : Z * string) : FoundString :=
  mkFound p (fst il) (snd il).

(** [substr] is an infix of [s], byte for byte. *)
Definition infix (substr s : string) : Prop :=
  exists before after, s = before ^^ substr ^^ after.

(** ** Inputs of the scenarios *)

(** A directory [d] with the one file [a.txt] of three lines. *)
Definition one_file_tree : node :=
  Dir "d" (Some [File "a.txt" (Some ("hello" ^^ nl ^^ "world" ^^ nl ^^ "hello again"))]).

Definition one_file_args : list string := ["mgrep"; "hello"; "d"].

(** A directory without entries. *)
Definition empty_tree : node := Dir "d" (Some []).

(** A directory [d] with the one file [a.txt], which cannot be read. *)
Definition unreadable_tree : node := Dir "d" (Some [File "a.txt" None]).

(** The scheduler that always picks the first enabled move: [main] when it
    can move, else the collector, else the first task of the list that can. *)
Definition first_enabled (n : nat) : list nat := repeat 0 n.

Section Later.

Variable v : variant.
Variable Args : list string.
Variable root : node.

(** [s'] comes after [s] in some run. *)
Inductive later (s : state) : state -> Prop :=
| later_now : later s s
| later_step s' s'' : later s s' -> step v Args root s' s'' -> later s s''.

End Later.

(** The process ends with a status other than 0 after the program has
    printed a message; [fmt.Println] is the only way the program writes. *)
Definition usage_failure (s : state) : Prop :=
  (exists c, exit_status s = Some c /\ c <> 0%Z) /\ stdout s <> [].

(** The matches of [one_file_tree] for ["hello"], with the indices of
    [parseFile]. *)
Definition one_file_hits : list FoundString :=
  [mkFound "d/a.txt" 0 "hello"; mkFound "d/a.txt" 2 "hello again"].

(** A state of a run on [one_file_tree] is not final, or [main] has returned
    after it received [one_file_hits] and printed them as [out]. *)
Definition one_file_final (v : variant) (out : list string) (s : state) : bool :=
  implb (halted v one_file_args one_file_tree s)
    (main_pc_eqb (main s) MExit
     && option_eqb (list_eqb FoundString_eqb) (hits s) (Some one_file_hits)
     && list_eqb String.eqb (stdout s) out).

(** The reachable states of the runs on [one_file_tree]. *)
Definition one_file_states (v : variant) : list state :=
  match explore v one_file_args one_file_tree 5000 [] [init] with
  | Some seen => seen
  | None => []
  end.

(** ** How a run ends *)

Inductive ending :=
| Returned        (* main returned: status 0 *)
| Panicked        (* main indexed os.Args out of range: status 2 *)
| AsleepInWait    (* every goroutine asleep, main in wg.Wait() *)
| AsleepInRecv    (* every goroutine asleep, main in <-results *)
| Running.        (* main is elsewhere *)

(** The ending that a state in which no goroutine can move stands for. *)
Definition ending_of (s : state) : ending :=
  match main s with
  | MExit => Returned
  | MPanic _ _ => Panicked
  | MWait => AsleepInWait
  | MRecv => AsleepInRecv
  | _ => Running
  end.

(** The ending read off the input: the arguments, the tree and the program. *)
Definition ending_for (v : variant) (Args : list string) (root : node) : ending :=
  if Nat.ltb (List.length Args) 3 then Panicked
  else if negb (searchable root) then AsleepInWait
  else match v, tree_matches (searchString_of Args) (searchDir_of Args) root with
       | Unbuffered, [] => AsleepInRecv
       | _, _ => Returned
       end.

(** What a run that returns has printed for the list [hs] it received:
    main.go one block for each hit, part_000 the whole slice at once, and
    nothing when no list was received. *)
Definition printed (v : variant) (hs : list FoundString) : list string :=
  match v with
  | Unbuffered => map Println_hit hs
  | Mutex => match hs with [] => [] | _ :: _ => [Println_hits hs] end
  end.

(** ** The files of a tree *)

(** The files below the entry [f] of directory [p] that can be read, each
    with the path [parseFile] reads it under and its content. *)
Fixpoint entry_files (f : node) (p : string) : list (string * string) :=
  match f with
  | File name (Some fileData) => [(filepath_Join p name, fileData)]
  | File _ None => []
  | Dir name (Some entries) =>
      flat_map (fun e => entry_files e (filepath_Join p name)) entries
  | Dir _ None => []
  end.

(** The files that a search of [d] as directory [searchDir] reads. *)
Definition tree_files (searchDir : string) (d : node) : list (string * string) :=
  match d with
  | Dir _ (Some entries) => flat_map (fun e => entry_files e searchDir) entries
  | _ => []
  end.

(** ** The order of the matches of one file *)

(** The paths under which the files below the entry [f] of directory [p]
    are read. *)
Fixpoint entry_paths (f : node) (p : string) : list string :=
  match f with
  | File name _ => [filepath_Join p name]
  | Dir name (Some entries) =>
      flat_map (fun e => entry_paths e (filepath_Join p name)) entries
  | Dir _ None => []
  end.

Definition entries_paths (p : string) (entries : list node) : list string :=
  flat_map (fun e => entry_paths e p) entries.

(** The paths of the files that a task reads, itself or through the
    goroutines it is going to start. *)
Definition task_paths (t : task) : list string :=
  match t with
  | ParseFile p _ _ => [p]
  | FileLoop p _ _ _ => [p]
  | ParseDir p _ (Dir _ (Some entries)) => entries_paths p entries
  | ParseDir _ _ _ => []
  | DirLoop p _ entries => entries_paths p entries
  | DirGo p _ file rest => entry_paths file p ++ entries_paths p rest
  end.

(** The paths of the files of the tree [d] searched as directory [searchDir]. *)
Definition tree_paths (searchDir : string) (d : node) : list string :=
  task_paths (ParseDir searchDir EmptyString d).

(** Of two matches of the same file, the one with the smaller index comes
    first in the list. *)
Definition in_file_order (l : list FoundString) : Prop :=
  ForallOrdPairs (fun m1 m2 => path m1 = path m2 -> (index m1 < index m2)%Z) l.

(** The list [l] holds nothing that the task [t] has still to send: for a
    task in the loop of [parseFile] only lines of its file before its index,
    for another task nothing of its files. *)
Definition ahead_of (l : list FoundString) (t : task) : Prop :=
  match t with
  | FileLoop p _ reached _ =>
      forall m, In m l -> path m = p -> (index m < reached)%Z
  | _ => forall m, In m l -> ~ In (path m) (task_paths t)
  end.

(** The invariant of the order: no file belongs to two tasks, the list is
    behind every task, and it is in file order. *)
Definition ordered (ts : list task) (l : list FoundString) : Prop :=
  NoDup (flat_map task_paths ts) /\ Forall (ahead_of l) ts /\ in_file_order l.

(** ** Who holds the mutex *)

(** The collector of part_000 is between its [lock.Lock()] and its
    [lock.Unlock()]. *)
Definition collector_holds (s : state) : bool :=
  match collector s with
  | CLoop | CPublish | CUnlock => true
  | _ => false
  end.

(** [main] of part_000 is past its [resultsLock.Lock()]. *)
Definition main_holds (s : state) : bool :=
  match main s with
  | MSelect | MExit => true
  | _ => false
  end.

(** The occurrences of the byte [c] in a string. *)
Fixpoint count_byte (c : ascii) (s : string) : nat :=
  match s with
  | EmptyString => 0
  | String d rest => (if Ascii.eqb d c then 1 else 0) + count_byte c rest
  end.

(** ** The matches of one file in a list *)

(** The matches of [l] reported under the path [q], in the order of [l]. *)
Definition of_file (q : string) (l : list FoundString) : list FoundString :=
  filter (fun m => String.eqb (path m) q) l.

(** A directory [d] with the file [a.txt] of the one line "hello" and the
    file [b.txt], which cannot be read. *)
Definition mixed_tree : node :=
  Dir "d" (Some [File "a.txt" (Some "hello"); File "b.txt" None]).

(** * Properties *)

(** Induction on trees, with the hypothesis for every entry of a directory. *)
Lemma node_ind (P : node -> Prop) :
  (forall name data, P (File name data)) ->
  (forall name, P (Dir name None)) ->
  (forall name entries, Forall P entries -> P (Dir name (Some entries))) ->
  forall f, P f.
Proof.
  intros HF HN HD.
  fix IH 1.
  intros [name data | name [entries|]].
  - apply HF.
  - apply HD. induction entries as [|e es IHes]; constructor; [apply IH | exact IHes].
  - apply HN.
Qed.


(** ** Task steps *)

Lemma tasks_from_inv s s' pre l :
  In s' (tasks_from s pre l) ->
  exists a t b, l = a ++ t :: b /\ In s' (task_apply s (pre ++ a) b (task_action t)).
Proof.
  revert pre. induction l as [|t post IH]; intros pre H; simpl in H.
  - contradiction.
  - apply in_app_or in H as [H|H].
    + exists [], t, post. rewrite app_nil_r. split; [reflexivity | exact H].
    + apply IH in H as (a & t' & b & -> & H).
      exists (t :: a), t', b. rewrite <- app_assoc in H. split; [reflexivity | exact H].
Qed.

Lemma tasks_next_inv s s' :
  In s' (tasks_next s) ->
  exists a t b, tasks s = a ++ t :: b /\ In s' (task_apply s a b (task_action t)).
Proof.
  intros H. apply tasks_from_inv in H as (a & t & b & E & H). eauto.
Qed.

Lemma tasks_from_intro s s' pre a t b :
  In s' (task_apply s (pre ++ a) b (task_action t)) ->
  In s' (tasks_from s pre (a ++ t :: b)).
Proof.
  revert pre. induction a as [|x a IH]; intros pre H; simpl.
  - rewrite app_nil_r in H. apply in_or_app. left. exact H.
  - apply in_or_app. right. apply IH. rewrite <- app_assoc. exact H.
Qed.

Lemma tasks_next_intro s s' a t b :
  tasks s = a ++ t :: b ->
  In s' (task_apply s a b (task_action t)) ->
  In s' (tasks_next s).
Proof.
  intros E H. unfold tasks_next. rewrite E. apply tasks_from_intro. exact H.
Qed.

(** A step is a step of [main], of the collector or of one task. *)
Lemma step_cases v Args root s s' :
  step v Args root s s' ->
  exit_status s = None /\
  (In s' (main_next v Args root s) \/ In s' (collector_next v s)
   \/ exists a t b, tasks s = a ++ t :: b /\ In s' (task_apply s a b (task_action t))).
Proof.
  unfold step, next. destruct (exit_status s); [contradiction|].
  intros H. split; [reflexivity|].
  apply in_app_or in H as [H|H]; [auto|].
  apply in_app_or in H as [H|H]; [auto|].
  right; right. apply tasks_next_inv. exact H.
Qed.

(** ** What one action does to a task's accounts *)

Lemma size_pos f : size f = S (below f).
Proof. destruct f as [? ?|? [?|]]; reflexivity. Qed.

Lemma child_pending p s f : pending (child_of p s f) = entry_matches s f p.
Proof. destruct f as [? [?|]|? [?|]]; reflexivity. Qed.

Lemma child_unregistered p s f : unregistered (child_of p s f) = below f.
Proof. destruct f as [? ?|? ?]; reflexivity. Qed.

Lemma child_owed p s f : owed (child_of p s f) = 1.
Proof. destruct f; reflexivity. Qed.

Lemma child_doomed p s f : doomed (child_of p s f) = unreadable f.
Proof. destruct f as [? [?|]|? [?|]]; reflexivity. Qed.

Lemma action_local t t' :
  task_action t = Local t' ->
  pending t' = pending t /\ unregistered t' = unregistered t
  /\ owed t' = owed t /\ doomed t' = doomed t.
Proof.
  destruct t as [p s [? [?|]|? ?]|p s i [|l ls]|p s [? ?|? [?|]]|p s [|f r]|p s f r];
    simpl; try discriminate.
  - intros [= <-]. auto.
  - destruct (Contains l s) eqn:E; [discriminate|]. intros [= <-]. simpl. try rewrite E. auto.
  - intros [= <-]. auto.
Qed.

Lemma action_add t t' :
  task_action t = WgAdd t' ->
  pending t' = pending t /\ S (unregistered t') = unregistered t
  /\ owed t' = S (owed t) /\ doomed t' = doomed t.
Proof.
  destruct t as [p s [? [?|]|? ?]|p s i [|l ls]|p s [? ?|? [?|]]|p s [|f r]|p s f r];
    simpl; try discriminate.
  - destruct (Contains l s); discriminate.
  - intros [= <-]. simpl. unfold sizes. simpl. rewrite size_pos. auto.
Qed.

Lemma action_spawn t c t' :
  task_action t = Spawn c t' ->
  pending t = pending c ++ pending t'
  /\ unregistered t = unregistered c + unregistered t'
  /\ owed t = owed c + owed t' /\ doomed t = doomed c || doomed t'.
Proof.
  destruct t as [p s [? [?|]|? ?]|p s i [|l ls]|p s [? ?|? [?|]]|p s [|f r]|p s f r];
    simpl; try discriminate.
  - destruct (Contains l s); discriminate.
  - intros [= <- <-]. rewrite child_pending, child_unregistered, child_owed, child_doomed.
    auto.
Qed.

Lemma action_send t m t' :
  task_action t = SendFound m t' ->
  pending t = m :: pending t' /\ unregistered t' = unregistered t
  /\ owed t' = owed t /\ doomed t' = doomed t.
Proof.
  destruct t as [p s [? [?|]|? ?]|p s i [|l ls]|p s [? ?|? [?|]]|p s [|f r]|p s f r];
    simpl; try discriminate.
  destruct (Contains l s) eqn:E; [|discriminate]. intros [= <- <-]. simpl. try rewrite E. auto.
Qed.

Lemma action_done t :
  task_action t = WgDone ->
  pending t = [] /\ unregistered t = 0 /\ owed t = 1 /\ doomed t = false.
Proof.
  destruct t as [p s [? [?|]|? ?]|p s i [|l ls]|p s [? ?|? [?|]]|p s [|f r]|p s f r];
    simpl; try discriminate; auto.
  destruct (Contains l s); discriminate.
Qed.

Lemma action_error t : task_action t = SendError -> doomed t = true.
Proof.
  destruct t as [p s [? [?|]|? ?]|p s i [|l ls]|p s [? ?|? [?|]]|p s [|f r]|p s f r];
    simpl; try discriminate; auto.
  destruct (Contains l s); discriminate.
Qed.

Lemma owed_pos t : 1 <= owed t.
Proof. destruct t; simpl; lia. Qed.

Lemma owed_none ts : list_sum (map owed ts) = 0 -> ts = [].
Proof.
  destruct ts as [|t ts]; [reflexivity|]. simpl. pose proof (owed_pos t). lia.
Qed.

(** ** The invariant holds of every reachable state *)

#[local] Arguments nth_error : simpl never.
#[local] Arguments nth : simpl never.

Ltac unfold_inv :=
  unfold Inv, collecting, unpublished, untouched, finished, accounted, draining,
    set_main, set_collector, set_tasks, init in *; simpl in *.

Lemma Inv_init v Args root : Inv v Args root init.
Proof. unfold Inv. simpl. auto. Qed.

Lemma nth_error_nth_string (l : list string) n x :
  nth_error l n = Some x -> nth n l EmptyString = x.
Proof. intros H. apply nth_error_nth. exact H. Qed.

Ltac finish := intuition (subst; simpl in *; try congruence; try lia; auto).

Lemma Inv_main v Args root s s' :
  Inv v Args root s -> In s' (main_next v Args root s) -> Inv v Args root s'.
Proof.
  intros I H. destruct s as [w fc res lk m h c l ts out reg comp snt].
  unfold main_next in H. simpl in H.
  destruct m.
  - (* MStart *)
    destruct H as [<-|[]]. unfold_inv. destruct I as [_ I].
    injection I as -> -> -> -> -> -> -> -> -> -> -> ->.
    destruct v; simpl; intuition auto.
  - (* MArgs *)
    destruct (nth_error Args 1) as [a1|] eqn:E1; [destruct (nth_error Args 2) as [a2|] eqn:E2|];
      simpl in H; destruct H as [<-|[]]; unfold_inv.
    + intuition auto.
    + apply nth_error_None in E2.
      assert (1 < List.length Args) by (apply nth_error_Some; congruence).
      destruct (Nat.leb_spec (List.length Args) 1); intuition (auto; try lia).
    + apply nth_error_None in E1.
      destruct (Nat.leb_spec (List.length Args) 1); intuition (auto; try lia).
  - (* MAdd *) destruct H as [<-|[]]; unfold_inv. intuition (auto; try lia).
  - (* MGo *) destruct H as [<-|[]]; unfold_inv.
    destruct I as (-> & E1 & E2 & HC & HU & (-> & -> & ->) & -> & ->).
    assert (3 <= List.length Args).
    { assert (2 < List.length Args) by (apply nth_error_Some; congruence). lia. }
    simpl. rewrite app_nil_r.
    unfold searchString_of, searchDir_of.
    rewrite (nth_error_nth_string _ _ _ E1), (nth_error_nth_string _ _ _ E2).
    unfold tree_matches, searchable. simpl.
    repeat split; try tauto; try lia; try (rewrite size_pos; lia).
    + apply Permutation_refl.
    + rewrite orb_false_r, negb_involutive. reflexivity.
  - (* MWait *)
    destruct (w =? 0)%Z eqn:E; [|contradiction]. apply Z.eqb_eq in E.
    destruct H as [<-|[]]; unfold_inv.
    destruct I as (-> & HA & HC & HU & Hw & Hr & Hn & HP & HD).
    assert (ts = []) by (apply owed_none; lia). subst ts. simpl in *.
    rewrite app_nil_r in HP.
    repeat split; try tauto; try lia.
    destruct (searchable root); [reflexivity|]. discriminate HD.
  - (* MClose *)
    destruct H as [<-|[]]; unfold_inv. destruct v; unfold_inv; finish.
  - (* MRecv *)
    destruct c; try contradiction. destruct l as [|x l]; [contradiction|].
    destruct H as [<-|[]]; unfold_inv. finish.
  - (* MPrint *)
    destruct rest as [|hit rest]; destruct H as [<-|[]]; unfold_inv;
      destruct I as (? & -> & ? & ? & ? & ? & ? & ? & ? & ? & E).
    + simpl in E. rewrite app_nil_r in E. finish.
    + rewrite <- app_assoc. simpl. finish.
  - (* MLock *)
    destruct lk; [contradiction|]. destruct H as [<-|[]]; unfold_inv. finish.
  - (* MSelect *)
    destruct res as [r|]; destruct H as [<-|[]]; unfold_inv;
      destruct I as (? & -> & ? & ? & ? & ? & ? & ? & I).
    + destruct l; finish.
    + destruct l; finish.
  - contradiction.
  - contradiction.
Qed.

Lemma Inv_collector v Args root s s' :
  Inv v Args root s -> In s' (collector_next v s) -> Inv v Args root s'.
Proof.
  intros I H. destruct s as [w fc res lk m h c l ts out reg comp snt].
  unfold collector_next in H. simpl in H.
  destruct c.
  - contradiction.
  - (* CLock *)
    destruct lk; [contradiction|]. destruct H as [<-|[]].
    destruct m; unfold_inv; destruct v; finish.
  - (* CLoop *)
    destruct fc; [|contradiction]. destruct H as [<-|[]].
    destruct m; unfold_inv; destruct v; finish.
  - (* CPublish *)
    destruct l as [|x l], v; try contradiction.
    + destruct H as [<-|[]]. destruct m; unfold_inv; finish.
    + destruct H as [<-|[]]. destruct m; unfold_inv; finish.
    + destruct res; [contradiction|]. destruct H as [<-|[]].
      destruct m; unfold_inv; finish.
  - (* CUnlock *)
    destruct H as [<-|[]]. destruct m; unfold_inv; destruct v; finish.
  - contradiction.
Qed.

Lemma Inv_task v Args root s s' a t b :
  Inv v Args root s -> exit_status s = None -> tasks s = a ++ t :: b ->
  In s' (task_apply s a b (task_action t)) -> Inv v Args root s'.
Proof.
  intros I X E H. destruct s as [w fc res lk m h c l ts out reg comp snt].
  simpl in E. subst ts.
  assert (M : m = MWait).
  { unfold exit_status in X. simpl in X.
    destruct m; unfold_inv; try discriminate; auto; exfalso;
      destruct I as [_ I]; try (injection I as _ _ _ _ _ _ _ I _ _ _);
      decompose [and] I; eapply app_cons_not_nil; eauto. }
  subst m. clear X.
  destruct I as (Hs & HA & HC & HU & Hw & Hr & Hn & HP & HD). simpl in *.
  rewrite !map_app, !list_sum_app, ?flat_map_app, ?existsb_app in *. simpl in *.
  destruct (task_action t) eqn:A; simpl in H.
  - apply action_local in A as (A1 & A2 & A3 & A4).
    destruct H as [<-|[]]. unfold_inv.
    rewrite !map_app, !list_sum_app, ?flat_map_app, ?existsb_app. simpl.
    rewrite A1, A2, A3, A4. finish.
  - apply action_add in A as (A1 & A2 & A3 & A4).
    destruct H as [<-|[]]. unfold_inv.
    rewrite !map_app, !list_sum_app, ?flat_map_app, ?existsb_app. simpl.
    rewrite A1, A3, A4. rewrite <- A2 in Hn. finish.
  - apply action_spawn in A as (A1 & A2 & A3 & A4).
    destruct H as [<-|[]]. unfold_inv.
    rewrite !map_app, !list_sum_app, ?flat_map_app, ?existsb_app. simpl.
    rewrite !map_app, !list_sum_app, ?flat_map_app, ?existsb_app. simpl.
    rewrite A1, A2, A3, A4 in *. rewrite app_nil_r, orb_false_r.
    repeat split; try tauto; try lia.
    + eapply Permutation_trans; [exact HP|].
      apply Permutation_app_head. apply Permutation_app_head.
      rewrite <- app_assoc. rewrite (app_assoc (pending t')).
      apply Permutation_app_comm.
    + rewrite <- HD.
      destruct (existsb doomed a), (doomed child), (doomed t'), (existsb doomed b); auto.
  - apply action_send in A as (A1 & A2 & A3 & A4).
    destruct c; try contradiction. destruct fc; [contradiction|].
    destruct H as [<-|[]]. unfold_inv.
    rewrite !map_app, !list_sum_app, ?flat_map_app, ?existsb_app. simpl.
    rewrite A1, <- ?A2, <- ?A3, <- ?A4 in *.
    repeat split; try tauto; try lia; try congruence.
    + destruct v; intuition congruence.
    + eapply Permutation_trans; [exact HP|].
      rewrite <- app_assoc. apply Permutation_app_head.
      simpl. apply Permutation_sym, Permutation_middle.
  - contradiction.
  - apply action_done in A as (A1 & A2 & A3 & A4).
    destruct H as [<-|[]]. unfold_inv.
    rewrite !map_app, !list_sum_app, ?flat_map_app, ?existsb_app. simpl.
    rewrite A1, A2, A3, A4 in *. simpl in *.
    repeat split; try tauto; try lia.
Qed.

Theorem reachable_Inv v Args root s :
  reachable v Args root s -> Inv v Args root s.
Proof.
  induction 1 as [|s s' R IH S].
  - apply Inv_init.
  - apply step_cases in S as (X & [S | [S | (a & t & b & E & S)]]).
    + eapply Inv_main; eauto.
    + eapply Inv_collector; eauto.
    + eapply Inv_task; eauto.
Qed.

(** ** Every run is finite *)

Lemma child_rank p s f : task_rank (child_of p s f) = entry_rank f.
Proof. destruct f as [? [?|]|? [?|]]; reflexivity. Qed.

Lemma rank_local t t' : task_action t = Local t' -> task_rank t' < task_rank t.
Proof.
  destruct t as [p s [? [?|]|? ?]|p s i [|l ls]|p s [? ?|? [?|]]|p s [|f r]|p s f r];
    simpl; try discriminate.
  - intros [= <-]. simpl. lia.
  - destruct (Contains l s); [discriminate|]. intros [= <-]. simpl. lia.
  - intros [= <-]. simpl. lia.
Qed.

Lemma rank_add t t' : task_action t = WgAdd t' -> task_rank t' < task_rank t.
Proof.
  destruct t as [p s [? [?|]|? ?]|p s i [|l ls]|p s [? ?|? [?|]]|p s [|f r]|p s f r];
    simpl; try discriminate.
  - destruct (Contains l s); discriminate.
  - intros [= <-]. cbn [task_rank]. unfold entries_rank. cbn [map].
    change (list_sum (?x :: ?l)) with (x + list_sum l). lia.
Qed.

Lemma rank_spawn t c t' :
  task_action t = Spawn c t' -> task_rank c + task_rank t' < task_rank t.
Proof.
  destruct t as [p s [? [?|]|? ?]|p s i [|l ls]|p s [? ?|? [?|]]|p s [|f r]|p s f r];
    simpl; try discriminate.
  - destruct (Contains l s); discriminate.
  - intros [= <- <-]. rewrite child_rank. simpl. lia.
Qed.

Lemma rank_send t m t' : task_action t = SendFound m t' -> 2 + task_rank t' <= task_rank t.
Proof.
  destruct t as [p s [? [?|]|? ?]|p s i [|l ls]|p s [? ?|? [?|]]|p s [|f r]|p s f r];
    simpl; try discriminate.
  destruct (Contains l s); [|discriminate]. intros [= <- <-]. simpl. lia.
Qed.

Lemma rank_done t : task_action t = WgDone -> 1 <= task_rank t.
Proof.
  destruct t as [p s [? [?|]|? ?]|p s i [|l ls]|p s [? ?|? [?|]]|p s [|f r]|p s f r];
    simpl; try discriminate; try lia.
Qed.

Theorem step_rank v Args root s s' :
  step v Args root s s' -> rank root s' < rank root s.
Proof.
  intros H. apply step_cases in H as (X & [H | [H | (a & t & b & E & H)]]).
  - destruct s as [w fc res lk m h c l ts out reg comp snt].
    unfold main_next in H. simpl in H. unfold rank, main_rank.
    destruct m; simpl in *.
    + destruct H as [<-|[]]. destruct v; simpl; lia.
    + destruct (nth_error Args 1); [destruct (nth_error Args 2)|];
        simpl in H; destruct H as [<-|[]]; simpl; lia.
    + destruct H as [<-|[]]. simpl. lia.
    + destruct H as [<-|[]]. simpl. rewrite map_app, list_sum_app. simpl.
      destruct root as [? ?|? [?|]]; simpl; lia.
    + destruct (w =? 0)%Z; [|contradiction]. destruct H as [<-|[]]. simpl. lia.
    + destruct H as [<-|[]]. destruct v; simpl; lia.
    + destruct c; try contradiction. destruct l; [contradiction|].
      destruct H as [<-|[]]. simpl. lia.
    + destruct rest; destruct H as [<-|[]]; simpl; lia.
    + destruct lk; [contradiction|]. destruct H as [<-|[]]. simpl. lia.
    + destruct res; destruct H as [<-|[]]; simpl; lia.
    + contradiction.
    + contradiction.
  - destruct s as [w fc res lk m h c l ts out reg comp snt].
    unfold collector_next in H. simpl in H. unfold rank, main_rank.
    destruct c; simpl in *; try contradiction.
    + destruct lk; [contradiction|]. destruct H as [<-|[]]. simpl. lia.
    + destruct fc; [|contradiction]. destruct H as [<-|[]]. simpl. lia.
    + destruct l, v; try contradiction; try (destruct H as [<-|[]]; simpl; lia).
      destruct res; [contradiction|]. destruct H as [<-|[]]. simpl. lia.
    + destruct H as [<-|[]]. simpl. lia.
  - destruct s as [w fc res lk m h c l ts out reg comp snt].
    simpl in E. subst ts. unfold rank, main_rank. simpl.
    destruct (task_action t) eqn:A; simpl in H.
    + apply rank_local in A. destruct H as [<-|[]]. simpl.
      rewrite !map_app, !list_sum_app. simpl. lia.
    + apply rank_add in A. destruct H as [<-|[]]. simpl.
      rewrite !map_app, !list_sum_app. simpl. lia.
    + apply rank_spawn in A. destruct H as [<-|[]]. simpl.
      rewrite !map_app, !list_sum_app. simpl. rewrite !map_app, !list_sum_app. simpl. lia.
    + apply rank_send in A. destruct c; try contradiction. destruct fc; [contradiction|].
      destruct H as [<-|[]]. simpl.
      rewrite !map_app, !list_sum_app, length_app. simpl.
      destruct m; lia.
    + contradiction.
    + apply rank_done in A. destruct H as [<-|[]]. simpl.
      rewrite !map_app, !list_sum_app. simpl. lia.
Qed.

Lemma reachable_ends v Args root s :
  reachable v Args root s -> ends_in v Args root (reachable v Args root) s.
Proof.
  remember (rank root s) as n eqn:E. revert s E.
  induction n as [n IH] using lt_wf_ind. intros s -> R.
  destruct (halted v Args root s) eqn:H.
  - apply ends_here; assumption.
  - apply ends_later; [assumption|]. intros s' S.
    apply (IH (rank root s')).
    + eapply step_rank; eauto.
    + reflexivity.
    + eapply reach_step; eauto.
Qed.

Lemma ends_in_weaken v Args root (P Q : state -> Prop) s :
  ends_in v Args root P s ->
  (forall s', P s' -> halted v Args root s' = true -> Q s') ->
  ends_in v Args root Q s.
Proof.
  intros E W. induction E as [s H p|s H _ IH].
  - apply ends_here; auto.
  - apply ends_later; auto.
Qed.

(** ** Where a run can stop *)

Lemma moves_main v Args root s :
  exit_status s = None -> main_next v Args root s <> [] -> halted v Args root s = false.
Proof.
  unfold halted, next. intros -> H.
  destruct (main_next v Args root s); [contradiction|reflexivity].
Qed.

Lemma moves_collector v Args root s :
  exit_status s = None -> collector_next v s <> [] -> halted v Args root s = false.
Proof.
  unfold halted, next. intros -> H.
  destruct (main_next v Args root s); [|reflexivity].
  destruct (collector_next v s); [contradiction|reflexivity].
Qed.

Lemma moves_task v Args root s t b :
  exit_status s = None -> tasks s = t :: b ->
  task_apply s [] b (task_action t) <> [] -> halted v Args root s = false.
Proof.
  unfold halted, next, tasks_next. intros -> -> H.
  destruct (main_next v Args root s); [|reflexivity].
  destruct (collector_next v s); [|reflexivity].
  simpl. destruct (task_apply s [] b (task_action t)); [contradiction|reflexivity].
Qed.

(** A run stops only where [main] is over, where a read has failed and the
    wait group cannot reach zero, or (main.go) where [main] waits for a list
    that the collector does not send. *)
Theorem halted_cases v Args root s :
  reachable v Args root s -> halted v Args root s = true ->
  main s = MExit
  \/ (exists i len, main s = MPanic i len)
  \/ (main s = MWait /\ searchable root = false)
  \/ (v = Unbuffered /\ main s = MRecv /\ collector s = CEnd /\ list_ s = []).
Proof.
  intros R H. apply reachable_Inv in R.
  destruct s as [w fc res lk m h c l ts out reg comp snt].
  assert (M : forall s0, main s0 = m -> exit_status s0 = None ->
              main_next v Args root s0 <> [] -> halted v Args root s0 = false)
    by (intros; apply moves_main; assumption).
  assert (C : forall s0, exit_status s0 = None ->
              collector_next v s0 <> [] -> halted v Args root s0 = false)
    by (intros; apply moves_collector; assumption).
  destruct m; auto.
  - (* MStart *) rewrite M in H; try reflexivity; discriminate.
  - (* MArgs *) rewrite M in H; try reflexivity; try discriminate.
    unfold main_next; simpl.
    destruct (nth_error Args 1); [destruct (nth_error Args 2)|]; discriminate.
  - (* MAdd *) rewrite M in H; try reflexivity; discriminate.
  - (* MGo *) rewrite M in H; try reflexivity; discriminate.
  - (* MWait *)
    right; right; left. split; [reflexivity|].
    destruct (searchable root) eqn:S; [exfalso|reflexivity].
    unfold_inv. destruct R as (-> & HA & HC & HU & Hw & Hr & Hn & HP & HD).
    destruct ts as [|t b].
    + rewrite M in H; try reflexivity; try discriminate.
      unfold main_next; simpl. subst w. discriminate.
    + rewrite S in HD. simpl in HD. apply orb_false_iff in HD as [HD _].
      assert (T : forall x, task_apply x [] b (task_action t) <> [] ->
                  tasks x = t :: b -> exit_status x = None -> halted v Args root x = false)
        by (intros; eapply moves_task; eauto).
      destruct (task_action t) eqn:A.
      * rewrite T in H; try reflexivity; discriminate.
      * rewrite T in H; try reflexivity; discriminate.
      * rewrite T in H; try reflexivity; discriminate.
      * destruct HU as (-> & _).
        destruct v; simpl in HC.
        -- destruct HC as [-> ->]. rewrite T in H; try reflexivity; discriminate.
        -- destruct HC as [(-> & -> & ->) | (-> & ->)].
           ++ rewrite C in H; try reflexivity; discriminate.
           ++ rewrite T in H; try reflexivity; discriminate.
      * apply action_error in A. congruence.
      * rewrite T in H; try reflexivity; discriminate.
  - (* MClose *) rewrite M in H; try reflexivity; discriminate.
  - (* MRecv *)
    unfold_inv. destruct R as (-> & -> & HA & HF & -> & -> & -> & -> & -> & HC).
    destruct HC as [-> | [-> | [-> ->]]].
    + rewrite C in H; try reflexivity; discriminate.
    + destruct l.
      * rewrite C in H; try reflexivity; discriminate.
      * rewrite M in H; try reflexivity; discriminate.
    + right; right; right. auto.
  - (* MPrint *) rewrite M in H; try reflexivity; try discriminate.
    unfold main_next; simpl. destruct rest; discriminate.
  - (* MLock *)
    exfalso. unfold_inv. destruct R as (-> & -> & HA & HF & -> & -> & -> & HC).
    destruct HC as [(-> & -> & -> & ->) | [(-> & -> & ->) | [(-> & -> & ->) | [(-> & -> & ->) | (-> & -> & ->)]]]].
    + rewrite M in H; try reflexivity; discriminate.
    + rewrite C in H; try reflexivity; discriminate.
    + rewrite C in H; try reflexivity; try discriminate.
      unfold collector_next; simpl. destruct l; discriminate.
    + rewrite C in H; try reflexivity; discriminate.
    + rewrite M in H; try reflexivity; discriminate.
  - (* MSelect *) rewrite M in H; try reflexivity; try discriminate.
    unfold main_next; simpl. destruct res; discriminate.
  - (* MPanic *) right; left. do 2 eexists. reflexivity.
Qed.

(** ** Exploring the runs of one input *)

Lemma option_eqb_sound {A} (eqb : A -> A -> bool) (a b : option A) :
  (forall x y, eqb x y = true -> x = y) -> option_eqb eqb a b = true -> a = b.
Proof.
  intros E. destruct a, b; simpl; try discriminate; auto.
  intros H. f_equal. auto.
Qed.

Lemma list_eqb_sound {A} (eqb : A -> A -> bool) (a : list A) :
  Forall (fun x => forall y, eqb x y = true -> x = y) a ->
  forall b, list_eqb eqb a b = true -> a = b.
Proof.
  induction 1 as [|x a Hx _ IH]; intros [|y b]; simpl; try discriminate; auto.
  intros H. apply andb_prop in H as [H1 H2]. f_equal; auto.
Qed.

Lemma list_eqb_sound' {A} (eqb : A -> A -> bool) :
  (forall x y, eqb x y = true -> x = y) ->
  forall a b, list_eqb eqb a b = true -> a = b.
Proof.
  intros E a. apply list_eqb_sound. apply Forall_forall. auto.
Qed.

Lemma string_eqb_sound x y : String.eqb x y = true -> x = y.
Proof. apply String.eqb_eq. Qed.

Lemma FoundString_eqb_sound a b : FoundString_eqb a b = true -> a = b.
Proof.
  destruct a, b. unfold FoundString_eqb. simpl. intros H.
  apply andb_prop in H as [H H3]. apply andb_prop in H as [H1 H2].
  apply String.eqb_eq in H1, H3. apply Z.eqb_eq in H2. congruence.
Qed.

Lemma node_eqb_sound a : forall b, node_eqb a b = true -> a = b.
Proof.
  induction a as [n d|n|n es IH] using node_ind;
    intros [n' d'|n' [es'|]]; simpl; try discriminate; intros H.
  - apply andb_prop in H as [H1 H2]. apply String.eqb_eq in H1.
    apply option_eqb_sound in H2; [congruence | apply string_eqb_sound].
  - apply String.eqb_eq in H. congruence.
  - apply andb_prop in H as [H1 H2]. apply String.eqb_eq in H1.
    apply list_eqb_sound in H2; [congruence | exact IH].
Qed.

Ltac split_andb H :=
  repeat match type of H with
         | (_ && _ = true) => let H' := fresh H in apply andb_prop in H as [H H']
         end.

Lemma task_eqb_sound a b : task_eqb a b = true -> a = b.
Proof.
  pose proof node_eqb_sound as N.
  pose proof (list_eqb_sound' _ (fun x y => node_eqb_sound x y)) as L.
  pose proof (list_eqb_sound' _ string_eqb_sound) as LS.
  destruct a, b; simpl; try discriminate; intros H; split_andb H;
    repeat match goal with
           | E : String.eqb _ _ = true |- _ => apply String.eqb_eq in E
           | E : Z.eqb _ _ = true |- _ => apply Z.eqb_eq in E
           | E : node_eqb _ _ = true |- _ => apply N in E
           | E : list_eqb node_eqb _ _ = true |- _ => apply L in E
           | E : list_eqb String.eqb _ _ = true |- _ => apply LS in E
           end; congruence.
Qed.

Lemma main_pc_eqb_sound a b : main_pc_eqb a b = true -> a = b.
Proof.
  pose proof (list_eqb_sound' _ FoundString_eqb_sound) as L.
  destruct a, b; simpl; try discriminate; intros H; split_andb H;
    repeat match goal with
           | E : String.eqb _ _ = true |- _ => apply String.eqb_eq in E
           | E : Nat.eqb _ _ = true |- _ => apply Nat.eqb_eq in E
           | E : list_eqb FoundString_eqb _ _ = true |- _ => apply L in E
           end; congruence.
Qed.

Lemma coll_pc_eqb_sound a b : coll_pc_eqb a b = true -> a = b.
Proof. destruct a, b; simpl; try discriminate; reflexivity. Qed.

Lemma state_eqb_sound a b : state_eqb a b = true -> a = b.
Proof.
  pose proof (list_eqb_sound' _ FoundString_eqb_sound) as L.
  pose proof (option_eqb_sound _ (results a) (results b) L) as O1.
  pose proof (option_eqb_sound _ (hits a) (hits b) L) as O2.
  pose proof (list_eqb_sound' _ task_eqb_sound) as LT.
  pose proof (list_eqb_sound' _ string_eqb_sound) as LS.
  destruct a, b. unfold state_eqb. simpl in *. intros H. split_andb H.
  repeat match goal with
         | E : Z.eqb _ _ = true |- _ => apply Z.eqb_eq in E
         | E : Nat.eqb _ _ = true |- _ => apply Nat.eqb_eq in E
         | E : Bool.eqb _ _ = true |- _ => apply Bool.eqb_prop in E
         | E : main_pc_eqb _ _ = true |- _ => apply main_pc_eqb_sound in E
         | E : coll_pc_eqb _ _ = true |- _ => apply coll_pc_eqb_sound in E
         | E : list_eqb FoundString_eqb _ _ = true |- _ => apply L in E
         | E : list_eqb task_eqb _ _ = true |- _ => apply LT in E
         | E : list_eqb String.eqb _ _ = true |- _ => apply LS in E
         | E : option_eqb _ _ _ = true |- _ => first [apply O1 in E | apply O2 in E]
         end.
  congruence.
Qed.

Lemma known_In s seen : known s seen = true -> In s seen.
Proof.
  unfold known. intros H. apply existsb_exists in H as (x & I & E).
  apply state_eqb_sound in E. subst. exact I.
Qed.

(** A closed list of states holds every reachable state. *)
Theorem closed_reachable v Args root seen :
  closed v Args root seen = true ->
  forall s, reachable v Args root s -> In s seen.
Proof.
  unfold closed. intros H. apply andb_prop in H as [H0 H].
  rewrite forallb_forall in H.
  induction 1 as [|s s' R IH S].
  - apply known_In. exact H0.
  - specialize (H _ IH). rewrite forallb_forall in H.
    apply known_In. apply H. exact S.
Qed.

(** A property checked on a closed list holds of every reachable state. *)
Corollary checked_reachable v Args root seen (P : state -> bool) :
  closed v Args root seen = true -> forallb P seen = true ->
  forall s, reachable v Args root s -> P s = true.
Proof.
  intros C F s R. rewrite forallb_forall in F. apply F.
  eapply closed_reachable; eauto.
Qed.

Lemma run_reachable v Args root sched :
  forall s, reachable v Args root s -> reachable v Args root (run v Args root sched s).
Proof.
  induction sched as [|k sched IH]; intros s R; simpl.
  - exact R.
  - destruct (nth_error (next v Args root s) k) as [s'|] eqn:E.
    + apply IH. eapply reach_step; [exact R|]. eapply nth_error_In. exact E.
    + apply IH. exact R.
Qed.

(** ** The line scanner *)

Lemma Split_nonempty s sep : Split s sep <> [].
Proof.
  destruct s as [|c s]; simpl; [discriminate|].
  destruct (Ascii.eqb c sep); [discriminate|].
  destruct (Split s sep); discriminate.
Qed.

Lemma Split_Join s sep : Join (Split s sep) sep = s.
Proof.
  induction s as [|c s IH]; simpl; [reflexivity|].
  pose proof (Split_nonempty s sep) as N.
  destruct (Ascii.eqb c sep) eqn:E.
  - apply Ascii.eqb_eq in E. subst c.
    destruct (Split s sep) as [|piece pieces]; [contradiction|].
    simpl in *. rewrite IH. reflexivity.
  - destruct (Split s sep) as [|piece pieces]; [contradiction|].
    destruct pieces as [|piece' pieces]; simpl in *; rewrite <- IH; reflexivity.
Qed.

Lemma Split_lacks s sep : Forall (fun piece => lacks sep piece = true) (Split s sep).
Proof.
  induction s as [|c s IH]; simpl.
  - constructor; [reflexivity | constructor].
  - destruct (Ascii.eqb c sep) eqn:E.
    + constructor; [reflexivity | exact IH].
    + destruct (Split s sep) as [|piece pieces].
      * constructor; [simpl; rewrite E; reflexivity | constructor].
      * inversion IH; subst. constructor; [simpl; rewrite E; assumption | assumption].
Qed.

Lemma prefix_append p s : String.prefix p s = true <-> exists t, s = p ^^ t.
Proof.
  revert s. induction p as [|c p IH]; intros s.
  - split; [intros _; exists s; reflexivity | intros _; destruct s; reflexivity].
  - destruct s as [|d s]; simpl.
    + split; [discriminate | intros [t H]; discriminate].
    + destruct (ascii_dec c d) as [->|N].
      * rewrite IH. split; intros [t H]; exists t; simpl in *; congruence.
      * split; [discriminate | intros [t H]; simpl in H; congruence].
Qed.

Lemma Contains_infix s substr : Contains s substr = true <-> infix substr s.
Proof.
  unfold infix. induction s as [|c s IH].
  - cbn [Contains]. destruct (String.prefix substr EmptyString) eqn:P.
    + apply prefix_append in P as [t P]. split; [|intros _; reflexivity].
      intros _. exists EmptyString, t. exact P.
    + split; [discriminate|]. intros (b & a & H).
      destruct b; simpl in H; [|discriminate].
      assert (String.prefix substr EmptyString = true) by (apply prefix_append; eauto).
      congruence.
  - cbn [Contains]. destruct (String.prefix substr (String c s)) eqn:P.
    + apply prefix_append in P as [t P]. split; [|intros _; reflexivity].
      intros _. exists EmptyString, t. exact P.
    + rewrite IH. split.
      * intros (b & a & H). exists (String c b), a. simpl. congruence.
      * intros (b & a & H). destruct b as [|d b]; simpl in H.
        -- assert (String.prefix substr (String c s) = true) by (apply prefix_append; eauto).
           congruence.
        -- injection H as _ H. eauto.
Qed.

Lemma Contains_empty s : Contains s EmptyString = true.
Proof. destruct s; reflexivity. Qed.

Lemma scan_from_filter p substr index lines :
  scan_from p substr index lines =
  map (found_at p) (filter (fun il => Contains (snd il) substr) (numbered index lines)).
Proof.
  revert index. induction lines as [|l rest IH]; intros index; simpl; [reflexivity|].
  destruct (Contains l substr); simpl; rewrite IH; reflexivity.
Qed.

(** The index of a line is its position in the file, counted from 0. *)
Lemma numbered_nth lines : forall index k l,
  In (k, l) (numbered index lines) <->
  (index <= k)%Z /\ nth_error lines (Z.to_nat (k - index)) = Some l.
Proof.
  induction lines as [|x rest IH]; intros index k l; simpl.
  - split; [contradiction|]. intros [_ H]. destruct (Z.to_nat (k - index)); discriminate.
  - rewrite IH. split.
    + intros [[= <- <-] | [L H]].
      * split; [lia|]. rewrite Z.sub_diag. reflexivity.
      * split; [lia|]. replace (Z.to_nat (k - index)) with (S (Z.to_nat (k - (index + 1)))) by lia.
        exact H.
    + intros [L H]. destruct (Z.eq_dec k index) as [->|N].
      * rewrite Z.sub_diag in H. simpl in H. injection H as ->. left. reflexivity.
      * right. split; [lia|].
        replace (Z.to_nat (k - index)) with (S (Z.to_nat (k - (index + 1)))) in H by lia.
        exact H.
Qed.

(** ** How the runs end *)

Lemma args_present (Args : list string) :
  3 <= List.length Args ->
  nth_error Args 1 = Some (searchString_of Args)
  /\ nth_error Args 2 = Some (searchDir_of Args).
Proof.
  intros L. unfold searchString_of, searchDir_of.
  split; apply nth_error_nth'; lia.
Qed.

(** When no read fails and, for main.go, there is a match, every run ends
    with [main] returned. *)
Lemma runs_complete v Args root :
  3 <= List.length Args -> searchable root = true ->
  v = Mutex \/ tree_matches (searchString_of Args) (searchDir_of Args) root <> [] ->
  ends_in v Args root
    (fun s => reachable v Args root s /\ main s = MExit) init.
Proof.
  intros L S M.
  eapply ends_in_weaken; [apply reachable_ends, reach_init|].
  intros s R H. split; [exact R|].
  pose proof (reachable_Inv _ _ _ _ R) as I.
  destruct (halted_cases _ _ _ _ R H) as [E | [(i & len & E) | [(E & U) | (V & E & C & N)]]].
  - exact E.
  - unfold Inv in I. rewrite E in I. exfalso. intuition lia.
  - congruence.
  - exfalso. unfold Inv in I. rewrite E in I.
    destruct I as (_ & _ & _ & (_ & _ & _ & _ & P & _) & _).
    rewrite N in P. apply Permutation_sym, Permutation_nil in P.
    destruct M as [M|M]; congruence.
Qed.

(** When a read fails, every run ends with every goroutine asleep and
    [main] in [wg.Wait()]. *)
Lemma runs_stuck_on_error v Args root :
  3 <= List.length Args -> searchable root = false ->
  ends_in v Args root
    (fun s => reachable v Args root s /\ deadlocked v Args root s = true /\ main s = MWait)
    init.
Proof.
  intros L S.
  eapply ends_in_weaken; [apply reachable_ends, reach_init|].
  intros s R H. split; [exact R|].
  pose proof (reachable_Inv _ _ _ _ R) as I.
  unfold deadlocked, exit_status. rewrite H.
  destruct (halted_cases _ _ _ _ R H) as [E | [(i & len & E) | [(E & U) | (V & E & C & N)]]];
    unfold Inv in I; rewrite E in *.
  - exfalso. destruct I as (_ & _ & (_ & _ & _ & _ & _ & F) & _). congruence.
  - exfalso. intuition lia.
  - auto.
  - exfalso. destruct I as (_ & _ & _ & (_ & _ & _ & _ & _ & F) & _). congruence.
Qed.

(** In main.go, when no read fails and nothing matches, every run ends with
    every goroutine asleep and [main] in [<-results]. *)
Lemma runs_stuck_on_no_match Args root :
  3 <= List.length Args -> searchable root = true ->
  tree_matches (searchString_of Args) (searchDir_of Args) root = [] ->
  ends_in Unbuffered Args root
    (fun s => reachable Unbuffered Args root s
              /\ deadlocked Unbuffered Args root s = true /\ main s = MRecv)
    init.
Proof.
  intros L S Z.
  eapply ends_in_weaken; [apply reachable_ends, reach_init|].
  intros s R H. split; [exact R|].
  pose proof (reachable_Inv _ _ _ _ R) as I.
  unfold deadlocked, exit_status. rewrite H.
  destruct (halted_cases _ _ _ _ R H) as [E | [(i & len & E) | [(E & U) | (V & E & C & N)]]];
    unfold Inv in I; rewrite E in *.
  - exfalso. destruct I as (_ & _ & (_ & _ & _ & _ & P & _) & _ & _ & K & _).
    rewrite Z in P. apply Permutation_nil in P. congruence.
  - exfalso. intuition lia.
  - congruence.
  - auto.
Qed.

(** ** The collector and the final list *)

(** A list that [main] has received is the sequence of the matches sent, and a
    permutation of the matches of the tree. *)
Lemma received_list v Args root s hs :
  reachable v Args root s ->
  hits s = Some hs ->
  hs = sent s
  /\ Permutation (tree_matches (searchString_of Args) (searchDir_of Args) root) hs
  /\ nth_error Args 1 = Some (searchString_of Args)
  /\ nth_error Args 2 = Some (searchDir_of Args).
Proof.
  intros R H. apply reachable_Inv in R.
  destruct s as [w fc res lk m h c l ts out reg comp snt].
  simpl in H. subst h.
  destruct m; unfold_inv; destruct R as [-> R]; try (intuition congruence).
  - (* MPrint *)
    destruct R as (_ & L & (_ & _ & _ & _ & P & _) & _ & _ & [= ->] & _).
    pose proof (args_present Args L). tauto.
  - (* MExit *)
    destruct R as (L & (_ & _ & _ & _ & P & _) & _ & R).
    pose proof (args_present Args L).
    destruct v.
    + destruct R as ([= ->] & _). tauto.
    + destruct R as (_ & _ & E & _). destruct l; [discriminate|].
      injection E as ->. tauto.
Qed.

(** In every run of either program, a list that [main] has received from the
    collector is the sequence of the matches sent on [found], and it holds
    every match of the tree exactly once: it is a permutation of the matches
    of all the files, whatever the interleaving of the tasks. *)
Theorem published_list_exactly_the_matches v Args root s hs :
  reachable v Args root s ->
  hits s = Some hs ->
  hs = sent s
  /\ Permutation (tree_matches (searchString_of Args) (searchDir_of Args) root) hs
  /\ nth_error Args 1 = Some (searchString_of Args)
  /\ nth_error Args 2 = Some (searchDir_of Args).
Proof. apply received_list. Qed.

Lemma published_list_exactly_the_matches_witness :
  let s := run Unbuffered one_file_args one_file_tree (first_enabled 40) init in
  hits s = Some one_file_hits /\ one_file_hits = sent s
  /\ Permutation (tree_matches "hello" "d" one_file_tree) one_file_hits.
Proof.
  intros s.
  destruct (published_list_exactly_the_matches Unbuffered one_file_args one_file_tree
              s one_file_hits) as (E & P & _).
  - apply run_reachable, reach_init.
  - reflexivity.
  - split; [reflexivity|]. split; [exact E | exact P].
Defined.

(** When no read fails and, for main.go, the tree has a match, every run ends
    with [main] returned after it has received the list of all the matches
    (part_000: or nothing, when there is no match). *)
Theorem matches_are_published v Args root :
  3 <= List.length Args -> searchable root = true ->
  v = Mutex \/ tree_matches (searchString_of Args) (searchDir_of Args) root <> [] ->
  ends_in v Args root
    (fun s => main s = MExit /\ hits s = published (sent s)
              /\ Permutation (tree_matches (searchString_of Args) (searchDir_of Args) root)
                   (sent s))
    init.
Proof.
  intros L S M.
  eapply ends_in_weaken; [apply runs_complete; assumption|].
  intros s [R E] _. split; [exact E|].
  apply reachable_Inv in R. unfold Inv in R. rewrite E in R.
  destruct R as (-> & _ & (_ & _ & _ & _ & P & _) & _ & R).
  split; [|exact P].
  destruct v.
  - destruct R as (-> & N & _). destruct (list_ s); [contradiction|reflexivity].
  - tauto.
Qed.

(** ** The completion coordinator *)

(** In every run, the units of work registered never exceed the entries of
    the tree and the wait group counts those not yet completed; when [main]
    closes [found] (and ever after) every entry of the tree, its top
    included, has been registered and has completed, and no task is left. *)
Theorem fan_in_complete v Args root s :
  reachable v Args root s ->
  (completed s <= registered s <= size root
   /\ wg s = Z.of_nat (registered s - completed s))
  /\ (main s = MClose \/ found_closed s = true ->
      tasks s = [] /\ wg s = 0%Z
      /\ registered s = size root /\ completed s = size root).
Proof.
  intros R. apply reachable_Inv in R.
  pose proof (size_pos root) as SP.
  destruct s as [w fc res lk m h c l ts out reg comp snt].
  destruct m; unfold_inv; destruct R as [_ R].
  - injection R as -> -> -> -> -> -> -> -> -> -> -> ->.
    split; [split; [lia|reflexivity] | intros [?|?]; discriminate].
  - decompose [and] R. subst. split; [split; [lia|reflexivity] | intros [?|?]; discriminate].
  - decompose [and] R. subst. split; [split; [lia|reflexivity] | intros [?|?]; discriminate].
  - decompose [and] R. subst. split; [split; [lia|reflexivity] | intros [?|?]; discriminate].
  - decompose [and] R. subst. split; [split; lia | intros [?|?]; discriminate].
  - decompose [and] R. subst. split; [split; [lia | rewrite Nat.sub_diag; reflexivity] | auto].
  - decompose [and] R. subst. split; [split; [lia | rewrite Nat.sub_diag; reflexivity] | auto].
  - decompose [and] R. subst. split; [split; [lia | rewrite Nat.sub_diag; reflexivity] | auto].
  - decompose [and] R. subst. split; [split; [lia | rewrite Nat.sub_diag; reflexivity] | auto].
  - decompose [and] R. subst. split; [split; [lia | rewrite Nat.sub_diag; reflexivity] | auto].
  - decompose [and] R. subst. split; [split; [lia | rewrite Nat.sub_diag; reflexivity] | auto].
  - decompose [and] R. subst. split; [split; [lia|reflexivity] | intros [?|?]; discriminate].
Qed.

Lemma fan_in_complete_witness :
  let s := run Unbuffered one_file_args one_file_tree (first_enabled 40) init in
  found_closed s = true /\ registered s = 2 /\ completed s = 2.
Proof.
  intros s.
  destruct (fan_in_complete Unbuffered one_file_args one_file_tree s) as [_ H].
  - apply run_reachable, reach_init.
  - destruct H as (_ & _ & H1 & H2).
    + right. reflexivity.
    + split; [reflexivity|]. split; [exact H1 | exact H2].
Defined.

(** ** Reads that fail *)

Lemma blocked_task_stays v Args root s s' t :
  reachable v Args root s -> In t (tasks s) -> task_action t = SendError ->
  step v Args root s s' -> In t (tasks s').
Proof.
  intros R T A S. apply reachable_Inv in R.
  apply step_cases in S as (X & [S | [S | (a & t2 & b & E & S)]]).
  - (* main cannot move: the counter is not zero *)
    exfalso. destruct s as [w fc res lk m h c l ts out reg comp snt].
    simpl in T. unfold exit_status in X. simpl in X.
    destruct m; unfold_inv; try discriminate;
      try (destruct R as [_ R]; try (injection R as _ _ _ _ _ _ _ R _ _ _);
           decompose [and] R; subst; contradiction).
    destruct R as (_ & _ & _ & _ & W & _).
    unfold main_next in S. simpl in S.
    destruct (w =? 0)%Z eqn:Z; [|contradiction]. apply Z.eqb_eq in Z.
    assert (ts = []) by (apply owed_none; lia). subst ts. contradiction.
  - (* the collector leaves the tasks as they are *)
    destruct s as [w fc res lk m h c l ts out reg comp snt].
    unfold collector_next in S. simpl in *.
    destruct c; try contradiction.
    + destruct lk; [contradiction|]. destruct S as [<-|[]]. exact T.
    + destruct fc; [|contradiction]. destruct S as [<-|[]]. exact T.
    + destruct l, v; try contradiction; try (destruct S as [<-|[]]; exact T).
      destruct res; [contradiction|]. destruct S as [<-|[]]. exact T.
    + destruct S as [<-|[]]. exact T.
  - (* another task moves *)
    rewrite E in T. apply in_app_or in T.
    assert (K : forall x, In t (a ++ x ++ b) \/ t = t2).
    { intros x. destruct T as [T|[T|T]]; [left|right|left].
      - apply in_or_app. auto.
      - congruence.
      - apply in_or_app. right. apply in_or_app. auto. }
    destruct (task_action t2) eqn:A2; simpl in S.
    + destruct S as [<-|[]]. simpl. destruct (K [t']) as [I | ->]; [exact I|congruence].
    + destruct S as [<-|[]]. simpl. destruct (K [t']) as [I | ->]; [exact I|congruence].
    + destruct S as [<-|[]]. simpl. destruct (K [t']) as [I | ->]; [|congruence].
      apply in_app_or in I as [I|I]; apply in_or_app; [left; exact I|right].
      simpl in I. destruct I as [I|I]; [left; exact I|right].
      apply in_or_app. left. exact I.
    + destruct (collector s); try contradiction. destruct (found_closed s); [contradiction|].
      destruct S as [<-|[]]. simpl. destruct (K [t']) as [I | ->]; [exact I|congruence].
    + contradiction.
    + destruct S as [<-|[]]. simpl. destruct (K []) as [I | ->]; [exact I|congruence].
Qed.

Lemma later_reachable v Args root s s' :
  reachable v Args root s -> later v Args root s s' -> reachable v Args root s'.
Proof.
  intros R L. induction L as [|s' s'' L IH S]; [exact R|].
  eapply reach_step; eauto.
Qed.

(** C9.  A task whose read has failed is inside [check], sending on [errors]:
    it is still there in every later state of the run, its [wg.Done()] never
    runs, the wait group stays above zero and fewer completions than
    registrations have been seen; [main] stays in [wg.Wait()]. *)
Theorem failed_read_never_signals v Args root s t s' :
  reachable v Args root s ->
  In t (tasks s) -> task_action t = SendError ->
  later v Args root s s' ->
  In t (tasks s') /\ completed s' < registered s' /\ (0 < wg s')%Z /\ main s' = MWait.
Proof.
  intros R T A L.
  assert (T' : In t (tasks s')).
  { induction L as [|s' s'' L IH S]; [exact T|].
    apply (blocked_task_stays v Args root s' s'' t); auto.
    eapply later_reachable; eauto. }
  split; [exact T'|].
  apply (later_reachable _ _ _ _ _ R) in L. apply reachable_Inv in L.
  destruct s' as [w fc res lk m h c l ts out reg comp snt]. simpl in *.
  destruct ts as [|t0 ts]; [contradiction|].
  destruct m; unfold_inv; destruct L as [_ L];
    try (try (injection L as _ _ _ _ _ _ _ L _ _ _); decompose [and] L; discriminate).
  destruct L as (_ & _ & _ & W & G & _).
  pose proof (owed_pos t0). simpl in *. repeat split; lia.
Qed.

Lemma failed_read_never_signals_witness :
  let s := run Unbuffered one_file_args unreadable_tree (first_enabled 7) init in
  tasks s = [DirLoop "d" "hello" []; ParseFile "d/a.txt" "hello" (File "a.txt" None)]
  /\ completed s < registered s /\ main s = MWait.
Proof.
  intros s.
  destruct (failed_read_never_signals Unbuffered one_file_args unreadable_tree s
              (ParseFile "d/a.txt" "hello" (File "a.txt" None)) s) as (_ & C & _ & M).
  - apply run_reachable, reach_init.
  - right. left. reflexivity.
  - reflexivity.
  - apply later_now.
  - split; [reflexivity|]. split; [exact C | exact M].
Defined.

(** C3.  When some read of the tree fails, every run of either program ends
    with every goroutine asleep: [main] is in [wg.Wait()], it has printed
    nothing and never returns. *)
Theorem read_failure_deadlocks v Args root :
  3 <= List.length Args -> searchable root = false ->
  ends_in v Args root
    (fun s => deadlocked v Args root s = true /\ main s = MWait
              /\ stdout s = [] /\ exit_status s = None)
    init.
Proof.
  intros L S.
  eapply ends_in_weaken; [apply runs_stuck_on_error; assumption|].
  intros s (R & D & M) _.
  apply reachable_Inv in R. unfold Inv in R. rewrite M in R.
  unfold exit_status. rewrite M.
  destruct R as (_ & _ & _ & (_ & _ & _ & O) & _). auto.
Qed.

Lemma read_failure_deadlocks_witness :
  ends_in Unbuffered one_file_args unreadable_tree
    (fun s => deadlocked Unbuffered one_file_args unreadable_tree s = true
              /\ main s = MWait /\ stdout s = [] /\ exit_status s = None)
    init.
Proof.
  apply (read_failure_deadlocks Unbuffered one_file_args unreadable_tree).
  - simpl. lia.
  - reflexivity.
Defined.

(** ** Trees without a match *)

(** C4.  In main.go, when no read fails and no line matches, every run ends
    with every goroutine asleep: the collector has returned without sending,
    [main] is in [<-results], nothing is printed and [main] never returns. *)
Theorem no_match_deadlocks_main_go Args root :
  3 <= List.length Args -> searchable root = true ->
  tree_matches (searchString_of Args) (searchDir_of Args) root = [] ->
  ends_in Unbuffered Args root
    (fun s => deadlocked Unbuffered Args root s = true /\ main s = MRecv
              /\ collector s = CEnd /\ stdout s = [] /\ exit_status s = None)
    init.
Proof.
  intros L S Z.
  eapply ends_in_weaken; [apply runs_stuck_on_no_match; assumption|].
  intros s (R & D & M) H.
  destruct (halted_cases _ _ _ _ R H) as [E | [(i & len & E) | [(E & U) | (V & E & C & N)]]];
    try congruence.
  apply reachable_Inv in R. unfold Inv in R. rewrite M in R.
  unfold exit_status. rewrite M. intuition auto.
Qed.

Lemma no_match_deadlocks_main_go_witness :
  ends_in Unbuffered one_file_args empty_tree
    (fun s => deadlocked Unbuffered one_file_args empty_tree s = true /\ main s = MRecv
              /\ collector s = CEnd /\ stdout s = [] /\ exit_status s = None)
    init.
Proof.
  apply (no_match_deadlocks_main_go one_file_args empty_tree).
  - simpl. lia.
  - reflexivity.
  - reflexivity.
Defined.

(** In part_000, when no read fails and no line matches, every run ends with
    [main] returned, status 0 and nothing printed. *)
Theorem no_match_completes_part_000 Args root :
  3 <= List.length Args -> searchable root = true ->
  tree_matches (searchString_of Args) (searchDir_of Args) root = [] ->
  ends_in Mutex Args root
    (fun s => exit_status s = Some 0%Z /\ stdout s = [] /\ hits s = None)
    init.
Proof.
  intros L S Z.
  eapply ends_in_weaken; [apply runs_complete; auto|].
  intros s [R E] _. unfold exit_status. rewrite E. split; [reflexivity|].
  apply reachable_Inv in R. unfold Inv in R. rewrite E in R.
  destruct R as (_ & _ & (_ & _ & _ & _ & P & _) & _ & _ & _ & H & O & _).
  rewrite Z in P. apply Permutation_nil in P. rewrite P in *. auto.
Qed.

(** ** The hand-over of the list in part_000 *)




(** C2.  In part_000 nothing makes the collector take the mutex before
    [main] does, as the comments of [main] expect: on an empty directory, in
    the run where [main] and the task move before the collector, [main]
    closes [found], takes the mutex and is at its [select] while the
    collector still waits at [lock.Lock()]; [main] then returns with nothing
    printed, the collector still waiting.  So it does not hold that [main]
    takes the mutex only after the collector has taken it. *)
Theorem main_locks_before_collector :
  let s := run Mutex one_file_args empty_tree [0; 0; 0; 0; 1; 1; 0; 0; 0] init in
  let s' := run Mutex one_file_args empty_tree [0] s in
  reachable Mutex one_file_args empty_tree s
  /\ found_closed s = true /\ main s = MSelect /\ resultsLock s = true
  /\ collector s = CLock /\ results s = None
  /\ main s' = MExit /\ collector s' = CLock /\ stdout s' = []
  /\ ~ (forall s0, reachable Mutex one_file_args empty_tree s0 ->
                   main s0 = MSelect -> collector s0 <> CLock).
Proof.
  intros s s'.
  assert (R : reachable Mutex one_file_args empty_tree s)
    by apply run_reachable, reach_init.
  split; [exact R|]. repeat (split; [reflexivity|]).
  intros H. apply (H s R); reflexivity.
Qed.

(** ** Missing arguments *)

(** C5, as amended.  With fewer than two arguments after the program name,
    every run ends in Go's run-time panic for the first index of [os.Args]
    that is out of range: the status is 2, the program has printed nothing,
    no unit of work has been registered and no task started. *)
Theorem missing_argument_panics v Args root :
  List.length Args < 3 ->
  ends_in v Args root
    (fun s => main s = MPanic (if Nat.leb (List.length Args) 1 then 1 else 2)
                              (List.length Args)
              /\ exit_status s = Some 2%Z /\ stdout s = []
              /\ registered s = 0 /\ tasks s = [] /\ wg s = 0%Z)
    init.
Proof.
  intros L.
  eapply ends_in_weaken; [apply reachable_ends, reach_init|].
  intros s R H.
  pose proof (reachable_Inv _ _ _ _ R) as I.
  destruct (halted_cases _ _ _ _ R H) as [E | [(i & len & E) | [(E & U) | (V & E & C & N)]]];
    unfold Inv in I; unfold exit_status; rewrite E in *.
  - exfalso. intuition lia.
  - destruct I as (_ & _ & (_ & _ & _ & O) & (T & _ & _) & W & G & -> & _ & ->).
    repeat split; auto.
  - exfalso. intuition lia.
  - exfalso. intuition lia.
Qed.

Lemma missing_argument_panics_witness :
  ends_in Unbuffered ["mgrep"] empty_tree
    (fun s => main s = MPanic 1 1
              /\ exit_status s = Some 2%Z /\ stdout s = []
              /\ registered s = 0 /\ tasks s = [] /\ wg s = 0%Z)
    init.
Proof.
  apply (missing_argument_panics Unbuffered ["mgrep"] empty_tree).
  simpl. lia.
Defined.

(** C5, as stated, fails: with the program name alone in [os.Args], no state
    of any run is a failure with a message of the program; the run ends in
    the panic "index out of range [1] with length 1". *)
Lemma missing_argument_no_usage_message :
  (~ exists s, reachable Unbuffered ["mgrep"] empty_tree s /\ usage_failure s)
  /\ main (run Unbuffered ["mgrep"] empty_tree (first_enabled 2) init) = MPanic 1 1
  /\ panic_message 1 1 = "runtime error: index out of range [1] with length 1".
Proof.
  split; [|split; reflexivity].
  intros (s & R & (c & E & N) & O).
  apply reachable_Inv in R. unfold Inv in R. unfold exit_status in E.
  destruct (main s); try discriminate.
  - simpl in R. destruct R as (_ & L & _). lia.
  - destruct R as (_ & _ & (_ & _ & _ & O') & _). contradiction.
Qed.

(** ** The line scanner of [parseFile] *)

(** C6.  For every file content and every non-empty search string: the
    lines are the pieces between the line feeds (joined by line feeds they
    give the content back, and none holds a line feed); [parseFile] sends
    exactly the lines that hold the search string as an infix, byte for
    byte, each with its index and its text, in file order; a match is the
    pair of a position in the file and the line there; an empty file gives
    no match. *)
Theorem line_scanner_correct p substr fileData :
  substr <> EmptyString ->
  let lines := Split fileData LF in
  Join lines LF = fileData
  /\ Forall (fun l => lacks LF l = true) lines
  /\ scan p substr fileData =
       map (found_at p) (filter (fun il => Contains (snd il) substr) (numbered 0 lines))
  /\ (forall l, Contains l substr = true <-> infix substr l)
  /\ (forall m, In m (scan p substr fileData) <->
        path m = p /\ (0 <= index m)%Z
        /\ nth_error lines (Z.to_nat (index m)) = Some (line m)
        /\ infix substr (line m))
  /\ scan p substr EmptyString = [].
Proof.
  intros N lines. split; [apply Split_Join|]. split; [apply Split_lacks|].
  split; [apply scan_from_filter|]. split; [intros l; apply Contains_infix|].
  split.
  - intros m. unfold scan. rewrite scan_from_filter, in_map_iff. split.
    + intros ([k l] & <- & I). apply filter_In in I as [I C]. simpl in *.
      apply numbered_nth in I as [I1 I2]. rewrite Z.sub_0_r in I2.
      apply Contains_infix in C. auto.
    + intros (P & I0 & I1 & C). exists (index m, line m). split.
      * destruct m. simpl in *. subst. reflexivity.
      * apply filter_In. split.
        -- apply numbered_nth. rewrite Z.sub_0_r. auto.
        -- apply Contains_infix. exact C.
  - destruct substr as [|c substr]; [contradiction|]. reflexivity.
Qed.

Lemma line_scanner_correct_witness :
  scan "d/a.txt" "hello" ("hello" ^^ nl ^^ "world" ^^ nl ^^ "hello again") =
  map (found_at "d/a.txt")
    (filter (fun il => Contains (snd il) "hello")
       (numbered 0 ["hello"; "world"; "hello again"])).
Proof.
  apply (line_scanner_correct "d/a.txt" "hello"
           ("hello" ^^ nl ^^ "world" ^^ nl ^^ "hello again")).
  discriminate.
Defined.

(** ** The empty search string *)

(** C10.  The empty string is contained in every line, so with an empty
    search string [parseFile] sends every line of its file with its index;
    [main] does not reject the empty string: no run with the three arguments
    ends in a panic, a list that [main] receives holds every line of every
    file read, exactly once, and when no read fails (and, for main.go, the
    tree has a file) every run ends with that list received. *)
Theorem empty_search_matches_every_line :
  (forall l, Contains l EmptyString = true)
  /\ (forall p fileData,
        scan p EmptyString fileData =
        map (found_at p) (numbered 0 (Split fileData LF)))
  /\ (forall v prog searchDir root s,
        reachable v [prog; EmptyString; searchDir] root s ->
        (forall i len, main s <> MPanic i len)
        /\ (forall hs, hits s = Some hs ->
              Permutation (tree_matches EmptyString searchDir root) hs))
  /\ (forall v prog searchDir root,
        searchable root = true ->
        v = Mutex \/ tree_matches EmptyString searchDir root <> [] ->
        ends_in v [prog; EmptyString; searchDir] root
          (fun s => main s = MExit /\ hits s = published (sent s)
                    /\ Permutation (tree_matches EmptyString searchDir root) (sent s))
          init).
Proof.
  split; [exact Contains_empty|]. split; [|split].
  - intros p fileData. unfold scan. rewrite scan_from_filter. f_equal.
    induction (numbered 0 (Split fileData LF)) as [|il ils IH]; [reflexivity|].
    simpl. rewrite Contains_empty, IH. reflexivity.
  - intros v prog searchDir root s R. split.
    + intros i len E. apply reachable_Inv in R. unfold Inv in R. rewrite E in R.
      simpl in R. lia.
    + intros hs H.
      apply (received_list v [prog; EmptyString; searchDir] root s hs R H).
  - intros v prog searchDir root S M.
    apply (matches_are_published v [prog; EmptyString; searchDir] root); auto.
Qed.

Lemma empty_search_matches_every_line_witness :
  let s := run Mutex ["mgrep"; EmptyString; "d"] one_file_tree (first_enabled 40) init in
  Permutation (tree_matches EmptyString "d" one_file_tree)
    [mkFound "d/a.txt" 0 "hello"; mkFound "d/a.txt" 1 "world";
     mkFound "d/a.txt" 2 "hello again"].
Proof.
  intros s.
  destruct empty_search_matches_every_line as (_ & _ & H & _).
  destruct (H Mutex "mgrep" "d" one_file_tree s) as [_ P].
  - apply run_reachable, reach_init.
  - apply P. reflexivity.
Defined.

(** ** Scenario 1: one file of three lines *)

Lemma one_file_closed v :
  closed v one_file_args one_file_tree (one_file_states v) = true.
Proof. destruct v; vm_compute; reflexivity. Qed.

Lemma one_file_final_sound v out s :
  one_file_final v out s = true ->
  halted v one_file_args one_file_tree s = true ->
  main s = MExit /\ hits s = Some one_file_hits /\ stdout s = out.
Proof.
  unfold one_file_final. intros F H. rewrite H in F. simpl in F.
  apply andb_prop in F as [F F3]. apply andb_prop in F as [F1 F2].
  apply main_pc_eqb_sound in F1.
  apply option_eqb_sound in F2;
    [|apply list_eqb_sound'; exact FoundString_eqb_sound].
  apply list_eqb_sound' in F3; [|exact string_eqb_sound].
  auto.
Qed.

(** C7, as amended.  On the directory with the one file of content
    "hello\nworld\nhello again" and the search string "hello", every run of
    main.go ends with [main] returned after it received the two matches
    (d/a.txt, 0, "hello") and (d/a.txt, 2, "hello again") and printed one
    block for each, in this order: the line numbers printed for the first and
    the third line are 0 and 2.  Every run of part_000 ends the same way,
    the two blocks printed as one slice. *)
Theorem scenario_one_prints_lines_0_and_2 :
  ends_in Unbuffered one_file_args one_file_tree
    (fun s => main s = MExit /\ hits s = Some one_file_hits
              /\ stdout s =
                 ["Hit found in file d/a.txt" ^^ nl ^^ "Line 0: " ^^ nl
                    ^^ "hello" ^^ nl ^^ nl;
                  "Hit found in file d/a.txt" ^^ nl ^^ "Line 2: " ^^ nl
                    ^^ "hello again" ^^ nl ^^ nl])
    init
  /\ ends_in Mutex one_file_args one_file_tree
       (fun s => main s = MExit /\ hits s = Some one_file_hits
                 /\ stdout s =
                    ["[Hit found in file d/a.txt" ^^ nl ^^ "Line 0: " ^^ nl
                       ^^ "hello" ^^ nl ^^ " Hit found in file d/a.txt" ^^ nl
                       ^^ "Line 2: " ^^ nl ^^ "hello again" ^^ nl ^^ "]" ^^ nl])
       init.
Proof.
  split.
  - eapply ends_in_weaken; [apply reachable_ends, reach_init|].
    intros s R H. apply (one_file_final_sound Unbuffered); [|exact H].
    apply (checked_reachable Unbuffered one_file_args one_file_tree
             (one_file_states Unbuffered)); [apply one_file_closed | | exact R].
    vm_compute. reflexivity.
  - eapply ends_in_weaken; [apply reachable_ends, reach_init|].
    intros s R H. apply (one_file_final_sound Mutex); [|exact H].
    apply (checked_reachable Mutex one_file_args one_file_tree
             (one_file_states Mutex)); [apply one_file_closed | | exact R].
    vm_compute. reflexivity.
Qed.

(** C7, as stated, fails: the run of main.go in which the scheduler always
    picks the first goroutine that can move ends with [main] returned, and
    the matches it received do not have the line numbers 1 and 3, whatever
    the path they are reported under. *)
Lemma scenario_one_not_lines_1_and_3 :
  ~ (forall s, reachable Unbuffered one_file_args one_file_tree s ->
               main s = MExit ->
               exists p, hits s = Some [mkFound p 1 "hello"; mkFound p 3 "hello again"]).
Proof.
  intros H.
  destruct (H (run Unbuffered one_file_args one_file_tree (first_enabled 40) init))
    as [p E].
  - apply run_reachable, reach_init.
  - reflexivity.
  - vm_compute in E. discriminate E.
Qed.

(** * Further properties of the programs *)

(** ** Printing *)

Lemma map_app_split {A B} (f : A -> B) (l : list A) : forall a b,
  map f l = a ++ b ->
  a = map f (firstn (List.length a) l) /\ b = map f (skipn (List.length a) l).
Proof.
  induction l as [|x l IH]; intros [|y a] b E; simpl in *; try discriminate; auto.
  injection E as <- E. apply IH in E as [E1 E2]. split; congruence.
Qed.


(** Whatever has been printed was printed after the traversal: [found] is
    closed, no task is left, every entry of the tree has completed, and
    [main] has received the whole list of the matches sent.  main.go has
    then printed the blocks of a first part of that list, in list order;
    part_000 has printed the list as one slice. *)
Theorem prints_only_after_traversal v Args root s :
  reachable v Args root s ->
  stdout s <> [] ->
  found_closed s = true /\ tasks s = [] /\ completed s = size root
  /\ hits s = Some (sent s) /\ sent s <> []
  /\ match v with
     | Unbuffered =>
         exists first rest,
           sent s = first ++ rest /\ stdout s = map Println_hit first
     | Mutex => stdout s = [Println_hits (sent s)]
     end.
Proof.
  intros R O. apply reachable_Inv in R.
  destruct s as [w fc res lk m h c l ts out reg comp snt].
  destruct m; unfold_inv; destruct R as [-> R];
    try (try (injection R as _ _ _ _ _ _ _ _ R _ _); decompose [and] R; congruence).
  - (* MPrint *)
    destruct R as (-> & _ & (-> & _ & _ & -> & _) & -> & _ & -> & _ & _ & N & E).
    repeat split; auto.
    apply map_app_split in E as [E _].
    exists (firstn (List.length out) l), (skipn (List.length out) l).
    rewrite firstn_skipn. auto.
  - (* MExit *)
    destruct R as (_ & (-> & _ & _ & -> & _) & -> & R). destruct v.
    + destruct R as (-> & N & _ & ->). repeat split; auto.
      exists l, []. rewrite app_nil_r. auto.
    + destruct R as (_ & _ & -> & -> & _). destruct l; [contradiction|].
      repeat split; auto. discriminate.
Qed.


Lemma prints_only_after_traversal_witness :
  let s := run Unbuffered one_file_args one_file_tree (first_enabled 40) init in
  found_closed s = true /\ tasks s = [] /\ hits s = Some (sent s).
Proof.
  intros s.
  destruct (prints_only_after_traversal Unbuffered one_file_args one_file_tree s)
    as (F & T & _ & H & _).
  - apply run_reachable, reach_init.
  - intros E. vm_compute in E. discriminate E.
  - auto.
Defined.

(** ** The synchronisation objects are used as Go requires *)

(** No run meets a run-time panic of [sync] or of a channel: the wait group
    counter is never negative and is at least 1 whenever a task is about to
    call [wg.Done()] or [wg.Add(1)]; a task is about to send on [found] only
    while [found] is open; [main] closes [found] once; the collector of
    part_000 unlocks the mutex only while it is held, and finds the slot of
    [results] free when it sends. *)
Theorem sync_objects_never_misused v Args root s :
  reachable v Args root s ->
  (0 <= wg s)%Z
  /\ (forall t, In t (tasks s) ->
        (task_action t = WgDone -> (1 <= wg s)%Z)
        /\ (forall t', task_action t = WgAdd t' -> (1 <= wg s)%Z)
        /\ (forall m t', task_action t = SendFound m t' -> found_closed s = false))
  /\ (main s = MClose -> found_closed s = false)
  /\ (collector s = CUnlock -> resultsLock s = true)
  /\ (v = Mutex -> collector s = CPublish -> results s = None).
Proof.
  intros R. apply reachable_Inv in R.
  destruct s as [w fc res lk m h c l ts out reg comp snt].
  assert (K : forall P : task -> Prop, ts = [] -> forall t, In t ts -> P t)
    by (intros P -> t []).
  destruct m; unfold_inv; destruct R as [_ R].
  - injection R as -> -> -> -> -> -> -> -> -> -> ->.
    repeat split; try discriminate; try lia; contradiction.
  - decompose [and] R. subst. split; [lia|]. split; [apply K; reflexivity|].
    destruct v; intuition congruence.
  - decompose [and] R. subst. split; [lia|]. split; [apply K; reflexivity|].
    destruct v; intuition congruence.
  - decompose [and] R. subst. split; [lia|]. split; [apply K; reflexivity|].
    destruct v; intuition congruence.
  - (* MWait *)
    destruct R as (_ & C & (-> & -> & _) & W & _).
    split; [lia|]. split.
    + intros t T.
      assert (1 <= list_sum (map owed ts)).
      { apply in_split in T as (a & b & ->).
        rewrite map_app, list_sum_app. simpl. pose proof (owed_pos t). lia. }
      repeat split; intros; try lia.
    + destruct v; intuition congruence.
  - decompose [and] R. subst. split; [lia|]. split; [apply K; reflexivity|].
    destruct v; intuition congruence.
  - decompose [and] R. subst. split; [lia|]. split; [apply K; reflexivity|].
    intuition congruence.
  - decompose [and] R. subst. split; [lia|]. split; [apply K; reflexivity|].
    intuition congruence.
  - decompose [and] R. subst. split; [lia|]. split; [apply K; reflexivity|].
    unfold_inv. intuition congruence.
  - decompose [and] R. subst. split; [lia|]. split; [apply K; reflexivity|].
    intuition congruence.
  - decompose [and] R. subst. split; [lia|]. split; [apply K; reflexivity|].
    destruct v; intuition congruence.
  - decompose [and] R. subst. split; [lia|]. split; [apply K; reflexivity|].
    destruct v; intuition congruence.
Qed.


Lemma sync_objects_never_misused_witness :
  let s := run Mutex one_file_args one_file_tree (first_enabled 8) init in
  exists t, In t (tasks s) /\ task_action t = WgDone /\ (1 <= wg s)%Z.
Proof.
  intros s.
  destruct (sync_objects_never_misused Mutex one_file_args one_file_tree s)
    as (_ & T & _).
  - apply run_reachable, reach_init.
  - exists (DirLoop "d" "hello" []).
    destruct (T (DirLoop "d" "hello" [])) as (D & _).
    + left. reflexivity.
    + split; [left; reflexivity|]. split; [reflexivity|]. apply D. reflexivity.
Defined.

(** ** What only grows *)




Lemma run_later v Args root sched :
  forall s, later v Args root s (run v Args root sched s).
Proof.
  assert (T : forall s1 s2 s3, later v Args root s2 s3 -> step v Args root s1 s2 ->
                               later v Args root s1 s3).
  { intros s1 s2 s3 L. induction L as [|s3 s4 L IH S]; intros S1.
    - eapply later_step; [apply later_now | exact S1].
    - eapply later_step; [apply IH; exact S1 | exact S]. }
  induction sched as [|k sched IH]; intros s; simpl.
  - apply later_now.
  - destruct (nth_error (next v Args root s) k) as [s'|] eqn:E.
    + eapply T; [apply IH|]. eapply nth_error_In. exact E.
    + apply IH.
Qed.


(** ** Every run ends *)

(** No run is infinite: the steps of either program, on any arguments and
    any tree, form a well-founded relation. *)
Theorem runs_are_finite v Args root :
  well_founded (fun s' s => step v Args root s s').
Proof.
  apply (well_founded_lt_compat state (rank root)).
  intros s' s S. eapply step_rank. exact S.
Qed.

(** How a run ends is settled by the input, not by the scheduler: with an
    argument missing every run ends in the panic; else, when a read of the
    tree fails, with every goroutine asleep and [main] in [wg.Wait()]; else,
    in main.go on a tree without a match, with every goroutine asleep and
    [main] in [<-results]; and in every other case with [main] returned. *)
Theorem ending_settled_by_input v Args root :
  ends_in v Args root (fun s => ending_of s = ending_for v Args root) init.
Proof.
  eapply ends_in_weaken; [apply reachable_ends, reach_init|].
  intros s R H.
  pose proof (reachable_Inv _ _ _ _ R) as I.
  unfold ending_of, ending_for.
  destruct (halted_cases _ _ _ _ R H) as [E | [(i & len & E) | [(E & U) | (V & E & C & N)]]];
    unfold Inv in I; rewrite E in *.
  - destruct I as (_ & L & (_ & _ & _ & _ & P & S) & _ & I).
    apply Nat.ltb_ge in L. rewrite L, S. simpl.
    destruct v; [|reflexivity].
    destruct I as (_ & N & _).
    destruct (tree_matches _ _ root); [|reflexivity].
    apply Permutation_nil in P. contradiction.
  - destruct I as (_ & _ & _ & _ & _ & _ & -> & L & _).
    apply Nat.ltb_lt in L. rewrite L. reflexivity.
  - destruct I as (_ & L & _). apply Nat.ltb_ge in L. rewrite L, U. reflexivity.
  - subst v. destruct I as (_ & _ & L & (_ & _ & _ & _ & P & S) & _).
    apply Nat.ltb_ge in L. rewrite L, S, N in *. simpl.
    apply Permutation_sym, Permutation_nil in P. rewrite P. reflexivity.
Qed.

(** When both arguments are there, no read fails and, for main.go, some line
    matches, every run ends with [main] returned with status 0, and what it
    has printed is the printing of a list that holds every match of the tree
    exactly once: one block for each hit in main.go, the slice as a whole in
    part_000 (nothing at all when it has no match). *)
Theorem complete_run_output v Args root :
  3 <= List.length Args -> searchable root = true ->
  v = Mutex \/ tree_matches (searchString_of Args) (searchDir_of Args) root <> [] ->
  ends_in v Args root
    (fun s => exit_status s = Some 0%Z
              /\ exists hs,
                   Permutation (tree_matches (searchString_of Args) (searchDir_of Args) root) hs
                   /\ stdout s = printed v hs)
    init.
Proof.
  intros L S M.
  eapply ends_in_weaken; [apply runs_complete; assumption|].
  intros s [R E] _. unfold exit_status. rewrite E. split; [reflexivity|].
  apply reachable_Inv in R. unfold Inv in R. rewrite E in R.
  destruct R as (_ & _ & (_ & _ & _ & _ & P & _) & _ & R).
  exists (list_ s). split; [exact P|].
  destruct v; simpl; tauto.
Qed.

Lemma complete_run_output_witness :
  ends_in Mutex one_file_args one_file_tree
    (fun s => exit_status s = Some 0%Z
              /\ exists hs,
                   Permutation (tree_matches "hello" "d" one_file_tree) hs
                   /\ stdout s = printed Mutex hs)
    init.
Proof.
  apply (complete_run_output Mutex one_file_args one_file_tree).
  - simpl. lia.
  - reflexivity.
  - left. reflexivity.
Defined.

(** ** What a failed read leaves behind *)

Lemma action_error_pending t : task_action t = SendError -> pending t = [].
Proof.
  destruct t as [p s [? [?|]|? ?]|p s i [|l ls]|p s [? ?|? [?|]]|p s [|f r]|p s f r];
    simpl; try discriminate; auto.
  destruct (Contains l s); discriminate.
Qed.

Lemma halted_parts v Args root s :
  halted v Args root s = true -> exit_status s = None ->
  main_next v Args root s = [] /\ collector_next v s = [] /\ tasks_next s = [].
Proof.
  unfold halted, next. intros H X. rewrite X in H.
  destruct (main_next v Args root s); [|discriminate].
  destruct (collector_next v s); [|discriminate].
  destruct (tasks_next s); [auto|discriminate].
Qed.

(** When a read of the tree fails, every run still collects every match of
    the files that can be read, and then stops for ever without printing
    one: at its end [main] is in [wg.Wait()], the only goroutines left
    besides the collector are the tasks inside [check], the collector's list
    holds every match of the tree exactly once, and nothing has been received
    by [main] or printed. *)
Theorem failed_read_loses_the_output v Args root :
  3 <= List.length Args -> searchable root = false ->
  ends_in v Args root
    (fun s => main s = MWait
              /\ tasks s <> []
              /\ Forall (fun t => task_action t = SendError) (tasks s)
              /\ Permutation (tree_matches (searchString_of Args) (searchDir_of Args) root)
                   (list_ s)
              /\ hits s = None /\ stdout s = [])
    init.
Proof.
  intros L S.
  eapply ends_in_weaken; [apply runs_stuck_on_error; assumption|].
  intros s (R & _ & M) H.
  assert (X : exit_status s = None) by (unfold exit_status; rewrite M; reflexivity).
  destruct (halted_parts _ _ _ _ H X) as (_ & HC & HT).
  apply reachable_Inv in R. unfold Inv in R. rewrite M in R.
  destruct R as (_ & _ & C & (F & _ & HH & O) & (_ & _ & _ & P & D)).
  assert (A : Forall (fun t => task_action t = SendError) (tasks s)).
  { apply Forall_forall. intros t T. apply in_split in T as (a & b & T).
    assert (N : task_apply s a b (task_action t) = []).
    { destruct (task_apply s a b (task_action t)) as [|s' l] eqn:E; [reflexivity|].
      exfalso. assert (I : In s' (tasks_next s)).
      { eapply tasks_next_intro; [exact T|]. rewrite E. left. reflexivity. }
      rewrite HT in I. exact I. }
    destruct (task_action t) eqn:Act; simpl in N; try discriminate; auto.
    exfalso. rewrite F in N.
    unfold collecting in C. unfold collector_next in HC.
    destruct v.
    - destruct C as [C _]. rewrite C in N. discriminate.
    - destruct C as [(C1 & C2 & _) | (C1 & _)].
      + rewrite C1, C2 in HC. discriminate.
      + rewrite C1 in N. discriminate. }
  split; [exact M|]. split.
  - rewrite S in D. simpl in D. intros E. rewrite E in D. discriminate.
  - split; [exact A|]. split; [|auto].
    assert (Z : flat_map pending (tasks s) = []).
    { clear -A. induction A as [|t ts At _ IH]; [reflexivity|].
      simpl. rewrite (action_error_pending _ At), IH. reflexivity. }
    rewrite Z, app_nil_r in P. exact P.
Qed.

Lemma failed_read_loses_the_output_witness :
  ends_in Mutex one_file_args unreadable_tree
    (fun s => main s = MWait
              /\ tasks s <> []
              /\ Forall (fun t => task_action t = SendError) (tasks s)
              /\ Permutation (tree_matches "hello" "d" unreadable_tree) (list_ s)
              /\ hits s = None /\ stdout s = [])
    init.
Proof.
  apply (failed_read_loses_the_output Mutex one_file_args unreadable_tree).
  - simpl. lia.
  - reflexivity.
Defined.

(** ** What the output holds *)

Lemma scan_In p substr fileData m :
  In m (scan p substr fileData) <->
  path m = p /\ (0 <= index m)%Z
  /\ nth_error (Split fileData LF) (Z.to_nat (index m)) = Some (line m)
  /\ infix substr (line m).
Proof.
  unfold scan. rewrite scan_from_filter, in_map_iff. split.
  - intros ([k l] & <- & I). apply filter_In in I as [I C]. simpl in *.
    apply numbered_nth in I as [I1 I2]. rewrite Z.sub_0_r in I2.
    apply Contains_infix in C. auto.
  - intros (P & I0 & I1 & C). exists (index m, line m). split.
    + destruct m. simpl in *. subst. reflexivity.
    + apply filter_In. split.
      * apply numbered_nth. rewrite Z.sub_0_r. auto.
      * apply Contains_infix. exact C.
Qed.

Lemma entry_matches_files s m f : forall p,
  In m (entry_matches s f p) <->
  exists q fileData, In (q, fileData) (entry_files f p) /\ In m (scan q s fileData).
Proof.
  induction f as [name [fileData|]|name|name entries IH] using node_ind; intros p; simpl.
  - split.
    + intros I. exists (filepath_Join p name), fileData. auto.
    + intros (q & d & [[= <- <-]|[]] & I). exact I.
  - split; [contradiction | intros (q & d & [] & _)].
  - split; [contradiction | intros (q & d & [] & _)].
  - rewrite in_flat_map. rewrite Forall_forall in IH. split.
    + intros (e & E & I). apply (IH e E) in I as (q & d & F & I).
      exists q, d. split; [|exact I]. apply in_flat_map. eauto.
    + intros (q & d & F & I). apply in_flat_map in F as (e & E & F).
      exists e. split; [exact E|]. apply (IH e E). eauto.
Qed.

Lemma tree_matches_files s searchDir d m :
  In m (tree_matches s searchDir d) <->
  exists q fileData, In (q, fileData) (tree_files searchDir d) /\ In m (scan q s fileData).
Proof.
  unfold tree_matches, tree_files.
  destruct d as [name data|name [entries|]]; simpl;
    try (split; [contradiction | intros (q & x & [] & _)]).
  unfold entries_matches. rewrite in_flat_map. split.
  - intros (e & E & I). apply entry_matches_files in I as (q & x & F & I).
    exists q, x. split; [|exact I]. apply in_flat_map. eauto.
  - intros (q & x & F & I). apply in_flat_map in F as (e & E & F).
    exists e. split; [exact E|]. apply entry_matches_files. eauto.
Qed.

(** A list that [main] receives is sound and complete: a match is in it if
    and only if some file read below the search directory, under the path of
    the match, has at the (0-based) index of the match the line of the
    match, and that line holds the search string. *)
Theorem output_sound_and_complete v Args root s hs :
  reachable v Args root s -> hits s = Some hs ->
  forall m,
    In m hs <->
    exists fileData,
      In (path m, fileData) (tree_files (searchDir_of Args) root)
      /\ (0 <= index m)%Z
      /\ nth_error (Split fileData LF) (Z.to_nat (index m)) = Some (line m)
      /\ infix (searchString_of Args) (line m).
Proof.
  intros R H m.
  destruct (received_list v Args root s hs R H) as (_ & P & _).
  split.
  - intros I. apply (Permutation_in _ (Permutation_sym P)) in I.
    apply tree_matches_files in I as (q & d & F & I).
    apply scan_In in I as (<- & I). eauto.
  - intros (d & F & I). apply (Permutation_in _ P).
    apply tree_matches_files. exists (path m), d. split; [exact F|].
    apply scan_In. tauto.
Qed.

Lemma output_sound_and_complete_witness :
  let s := run Mutex one_file_args one_file_tree (first_enabled 40) init in
  exists fileData,
    In ("d/a.txt", fileData) (tree_files "d" one_file_tree)
    /\ nth_error (Split fileData LF) 2 = Some "hello again".
Proof.
  intros s.
  destruct (output_sound_and_complete Mutex one_file_args one_file_tree s one_file_hits)
    with (m := mkFound "d/a.txt" 2 "hello again") as [H _].
  - apply run_reachable, reach_init.
  - reflexivity.
  - destruct H as (d & F & _ & N & _).
    + right. left. reflexivity.
    + exists d. split; [exact F | exact N].
Defined.

(** ** A line feed at the end of a file *)

Lemma Split_final_sep s sep :
  Split (s ^^ String sep EmptyString) sep = Split s sep ++ [EmptyString].
Proof.
  induction s as [|c s IH]; simpl.
  - rewrite Ascii.eqb_refl. reflexivity.
  - destruct (Ascii.eqb c sep).
    + rewrite IH. reflexivity.
    + rewrite IH. pose proof (Split_nonempty s sep) as N.
      destruct (Split s sep); [contradiction|reflexivity].
Qed.

Lemma scan_from_app p s lines : forall index more,
  scan_from p s index (lines ++ more) =
  scan_from p s index lines
  ++ scan_from p s (index + Z.of_nat (List.length lines)) more.
Proof.
  induction lines as [|l lines IH]; intros index more; simpl.
  - rewrite Z.add_0_r. reflexivity.
  - replace (index + Z.pos (Pos.of_succ_nat (List.length lines)))%Z
      with (index + 1 + Z.of_nat (List.length lines))%Z by lia.
    destruct (Contains l s); simpl; rewrite IH; reflexivity.
Qed.

(** A file that ends with a line feed has one more line, the empty one after
    it: [parseFile] reports it, under the index that follows the last line,
    when the search string is empty, and else reports just what it reports
    for the file without that line feed. *)
Theorem final_line_feed p substr fileData :
  scan p substr (fileData ^^ nl) =
  scan p substr fileData
  ++ match substr with
     | EmptyString => [mkFound p (Z.of_nat (List.length (Split fileData LF))) EmptyString]
     | String _ _ => []
     end.
Proof.
  unfold scan, nl. rewrite Split_final_sep, scan_from_app. f_equal.
  simpl. destruct substr; reflexivity.
Qed.

(** ** The block printed for a hit *)

From Stdlib Require DecimalPos DecimalZ.


Lemma string_append_assoc (a b c : string) : (a ^^ b) ^^ c = a ^^ (b ^^ c).
Proof. induction a as [|x a IH]; simpl; [reflexivity | rewrite IH; reflexivity]. Qed.

Lemma string_append_length (a b : string) :
  String.length (a ^^ b) = String.length a + String.length b.
Proof. induction a as [|x a IH]; simpl; [reflexivity | rewrite IH; reflexivity]. Qed.

Lemma string_append_cancel_r (a a' b : string) : a ^^ b = a' ^^ b -> a = a'.
Proof.
  revert a'. induction a as [|x a IH]; intros [|y a'] E; simpl in *.
  - reflexivity.
  - exfalso. apply (f_equal String.length) in E. simpl in E.
    rewrite string_append_length in E. lia.
  - exfalso. apply (f_equal String.length) in E. simpl in E.
    rewrite string_append_length in E. lia.
  - injection E as -> E. f_equal. apply IH. exact E.
Qed.

(** Two strings without the byte [c], each followed by [c], begin the same
    text: they are equal, and so is what follows. *)
Lemma string_cut_at c (a a' r r' : string) :
  lacks c a = true -> lacks c a' = true ->
  a ^^ String c r = a' ^^ String c r' -> a = a' /\ r = r'.
Proof.
  revert a'. induction a as [|x a IH]; intros [|y a'] La La' E; simpl in *.
  - injection E as ->. auto.
  - injection E as <- _. rewrite Ascii.eqb_refl in La'. discriminate.
  - injection E as -> _. rewrite Ascii.eqb_refl in La. discriminate.
  - injection E as -> E.
    apply andb_prop in La as [_ La]. apply andb_prop in La' as [_ La'].
    destruct (IH a' La La' E) as [-> ->]. auto.
Qed.

Lemma digits_lack_colon d : lacks ":" (NilEmpty.string_of_uint d) = true.
Proof. induction d; simpl; auto. Qed.

Lemma format_int_lacks_colon n : lacks ":" (format_int n) = true.
Proof.
  unfold format_int, NilZero.string_of_int, NilZero.string_of_uint.
  destruct (Z.to_int n) as [d|d]; destruct d; simpl; auto using digits_lack_colon.
Qed.

Lemma format_int_inj a b : format_int a = format_int b -> a = b.
Proof.
  unfold format_int. intros E.
  assert (N : forall z, Z.to_int z <> Decimal.Pos Decimal.Nil
                        /\ Z.to_int z <> Decimal.Neg Decimal.Nil).
  { intros [|p|p]; simpl; split; try discriminate;
      intros [= H]; apply (Stdlib.Numbers.DecimalPos.Unsigned.to_uint_nonnil p); exact H. }
  apply (f_equal NilZero.int_of_string) in E.
  rewrite !NilZero.isi in E by apply N.
  injection E as E. apply (f_equal Z.of_int) in E.
  rewrite !Stdlib.Numbers.DecimalZ.of_to in E. exact E.
Qed.

(** The block that [String()] builds for a hit names the hit: two hits whose
    paths hold no line feed and that print as the same block are the same
    hit, path, index and line. *)
Theorem block_names_its_hit fs fs' :
  lacks LF (path fs) = true -> lacks LF (path fs') = true ->
  FoundString_String fs = FoundString_String fs' -> fs = fs'.
Proof.
  destruct fs as [p i l], fs' as [p' i' l']. unfold FoundString_String, nl. simpl.
  intros Lp Lp' E.
  rewrite !string_append_assoc in E. simpl in E.
  injection E as E.
  apply string_cut_at in E as [-> E]; try assumption.
  rewrite !string_append_assoc in E. simpl in E.
  injection E as E.
  apply string_cut_at in E as [F E]; try apply format_int_lacks_colon.
  apply format_int_inj in F. subst i'.
  injection E as E.
  apply string_append_cancel_r in E. subst l'. reflexivity.
Qed.

Lemma block_names_its_hit_witness :
  mkFound (filepath_Join "d" "a.txt") (1 + 1) "hello again"
  = mkFound "d/a.txt" 2 "hello again".
Proof.
  apply (block_names_its_hit
           (mkFound (filepath_Join "d" "a.txt") (1 + 1) "hello again")
           (mkFound "d/a.txt" 2 "hello again")); reflexivity.
Defined.

(** ** The matches of one file keep their order *)

Lemma child_paths p s f : task_paths (child_of p s f) = entry_paths f p.
Proof. destruct f as [? [?|]|? [?|]]; reflexivity. Qed.

Lemma paths_local t t' : task_action t = Local t' -> task_paths t' = task_paths t.
Proof.
  destruct t as [p s [? [?|]|? ?]|p s i [|l ls]|p s [? ?|? [?|]]|p s [|f r]|p s f r];
    simpl; try discriminate.
  - intros [= <-]. reflexivity.
  - destruct (Contains l s); [discriminate|]. intros [= <-]. reflexivity.
  - intros [= <-]. reflexivity.
Qed.

Lemma ahead_local l t t' : task_action t = Local t' -> ahead_of l t -> ahead_of l t'.
Proof.
  destruct t as [p s [? [?|]|? ?]|p s i [|x ls]|p s [? ?|? [?|]]|p s [|f r]|p s f r];
    simpl; try discriminate.
  - intros [= <-] A m I E. exfalso. apply (A m I). left. auto.
  - destruct (Contains x s); [discriminate|]. intros [= <-] A m I E.
    specialize (A m I E). lia.
  - intros [= <-] A. exact A.
Qed.

Lemma paths_add t t' :
  task_action t = WgAdd t' -> task_paths t' = task_paths t /\ (forall l, ahead_of l t -> ahead_of l t').
Proof.
  destruct t as [p s [? [?|]|? ?]|p s i [|x ls]|p s [? ?|? [?|]]|p s [|f r]|p s f r];
    simpl; try discriminate.
  - destruct (Contains x s); discriminate.
  - intros [= <-]. split; [reflexivity | auto].
Qed.

Lemma paths_spawn t c t' :
  task_action t = Spawn c t' ->
  task_paths t = task_paths c ++ task_paths t'
  /\ (forall l, ahead_of l t -> ahead_of l c /\ ahead_of l t').
Proof.
  destruct t as [p s [? [?|]|? ?]|p s i [|x ls]|p s [? ?|? [?|]]|p s [|f r]|p s f r];
    simpl; try discriminate.
  - destruct (Contains x s); discriminate.
  - intros [= <- <-]. rewrite child_paths. split; [reflexivity|].
    intros l A. split.
    + assert (C : forall m, In m l -> ~ In (path m) (task_paths (child_of p s f))).
      { intros m I N. apply (A m I). apply in_or_app. left.
        rewrite <- (child_paths p s f). exact N. }
      destruct f; exact C.
    + intros m I N. apply (A m I). apply in_or_app. right. exact N.
Qed.

Lemma paths_send t m t' :
  task_action t = SendFound m t' ->
  exists p s i x ls,
    t = FileLoop p s i (x :: ls) /\ m = mkFound p i x
    /\ t' = FileLoop p s (i + 1) ls.
Proof.
  destruct t as [p s [? [?|]|? ?]|p s i [|x ls]|p s [? ?|? [?|]]|p s [|f r]|p s f r];
    simpl; try discriminate.
  destruct (Contains x s); [|discriminate]. intros [= <- <-].
  exists p, s, i, x, ls. auto.
Qed.

Lemma in_file_order_snoc l m :
  in_file_order l ->
  (forall m1, In m1 l -> path m1 = path m -> (index m1 < index m)%Z) ->
  in_file_order (l ++ [m]).
Proof.
  unfold in_file_order. induction 1 as [|x l Hx Hl IH]; intros B; simpl.
  - constructor; constructor.
  - constructor.
    + apply Forall_app. split; [exact Hx|].
      constructor; [|constructor]. apply B. left. reflexivity.
    + apply IH. intros m1 I. apply B. right. exact I.
Qed.

Lemma NoDup_not_both {A} (l1 l2 : list A) x :
  NoDup (l1 ++ l2) -> In x l1 -> In x l2 -> False.
Proof.
  induction l1 as [|y l1 IH]; simpl; intros N I1 I2; [contradiction|].
  apply NoDup_cons_iff in N as [Ny N]. destruct I1 as [->|I1].
  - apply Ny. apply in_or_app. right. exact I2.
  - apply IH; assumption.
Qed.

Lemma NoDup_without_middle {A} (l1 l2 l3 : list A) :
  NoDup (l1 ++ l2 ++ l3) -> NoDup (l1 ++ l3).
Proof.
  intros N. apply (NoDup_app_remove_l l2).
  eapply Permutation_NoDup; [|exact N].
  rewrite !app_assoc. apply Permutation_app_tail. apply Permutation_app_comm.
Qed.

(** One step of a task keeps the order invariant. *)
Lemma ordered_task s s' a t b :
  tasks s = a ++ t :: b ->
  In s' (task_apply s a b (task_action t)) ->
  ordered (tasks s) (list_ s) -> ordered (tasks s') (list_ s').
Proof.
  intros E H (N & A & O). rewrite E in *.
  rewrite flat_map_app in N. simpl in N.
  apply Forall_app in A as [Aa A]. inversion A as [|? ? At Ab]; subst.
  destruct (task_action t) eqn:Act; simpl in H.
  - (* Local *)
    destruct H as [<-|[]]. simpl. split; [|split; [|exact O]].
    + rewrite flat_map_app. simpl. rewrite (paths_local _ _ Act). exact N.
    + apply Forall_app. split; [exact Aa|]. constructor; [|exact Ab].
      eapply ahead_local; eauto.
  - (* WgAdd *)
    destruct H as [<-|[]]. simpl. destruct (paths_add _ _ Act) as [P Q].
    split; [|split; [|exact O]].
    + rewrite flat_map_app. simpl. rewrite P. exact N.
    + apply Forall_app. split; [exact Aa|]. constructor; [|exact Ab]. auto.
  - (* Spawn *)
    destruct H as [<-|[]]. simpl. destruct (paths_spawn _ _ _ Act) as [P Q].
    destruct (Q _ At) as [Ac At'].
    split; [|split; [|exact O]].
    + rewrite flat_map_app. simpl. rewrite flat_map_app. simpl. rewrite app_nil_r.
      eapply Permutation_NoDup; [|exact N]. rewrite P.
      apply Permutation_app_head. rewrite <- app_assoc.
      rewrite (app_assoc (task_paths t')). apply Permutation_app_comm.
    + apply Forall_app. split; [exact Aa|]. constructor; [exact At'|].
      apply Forall_app. split; [exact Ab|]. constructor; [exact Ac|constructor].
  - (* SendFound *)
    destruct (paths_send _ _ _ Act) as (p & sr & i & x & ls & -> & -> & ->).
    destruct (collector s); try contradiction. destruct (found_closed s); [contradiction|].
    destruct H as [<-|[]]. simpl in *.
    assert (Out : forall u, In u a \/ In u b -> ~ In p (task_paths u)).
    { intros u U Pu. destruct U as [U|U].
      - apply (NoDup_not_both _ _ p N).
        + apply in_flat_map. eauto.
        + left. reflexivity.
      - apply NoDup_app_remove_l in N. apply NoDup_cons_iff in N as [N _].
        apply N. apply in_flat_map. eauto. }
    assert (Keep : forall u, In u a \/ In u b -> ahead_of (list_ s) u ->
                             ahead_of (list_ s ++ [mkFound p i x]) u).
    { intros u U Au. specialize (Out u U).
      destruct u; simpl in *; intros m I;
        (apply in_app_or in I as [I|[<-|[]]]; [apply Au; exact I|]); simpl; auto.
      intros Ep. exfalso. apply Out. left. auto. }
    split; [|split].
    + rewrite flat_map_app. simpl. exact N.
    + apply Forall_app. split; [|constructor].
      * apply Forall_forall. intros u U. apply Keep; [auto|].
        rewrite Forall_forall in Aa. auto.
      * intros m I Ep. apply in_app_or in I as [I|[<-|[]]].
        -- specialize (At m I Ep). lia.
        -- simpl. lia.
      * apply Forall_forall. intros u U. apply Keep; [auto|].
        rewrite Forall_forall in Ab. auto.
    + apply in_file_order_snoc; [exact O|]. intros m1 I Ep. simpl in *.
      apply At; assumption.
  - contradiction.
  - (* WgDone *)
    destruct H as [<-|[]]. simpl. split; [|split; [|exact O]].
    + rewrite flat_map_app. eapply NoDup_without_middle. exact N.
    + apply Forall_app. split; [exact Aa | exact Ab].
Qed.

Lemma main_step_tasks v Args root s s' :
  In s' (main_next v Args root s) ->
  list_ s' = list_ s
  /\ (tasks s' = tasks s
      \/ exists searchString searchDir,
           main s = MGo searchString searchDir
           /\ tasks s' = tasks s ++ [ParseDir searchDir searchString root]).
Proof.
  destruct s as [w fc res lk m h c l ts out reg comp snt].
  unfold main_next. simpl. intros H.
  destruct m; simpl in *.
  - destruct H as [<-|[]]. auto.
  - destruct (nth_error Args 1); [destruct (nth_error Args 2)|];
      simpl in H; destruct H as [<-|[]]; auto.
  - destruct H as [<-|[]]. auto.
  - destruct H as [<-|[]]. simpl. split; [reflexivity|]. right. eauto.
  - destruct (w =? 0)%Z; [|contradiction]. destruct H as [<-|[]]. auto.
  - destruct H as [<-|[]]. auto.
  - destruct c; try contradiction. destruct l; [contradiction|].
    destruct H as [<-|[]]. auto.
  - destruct rest; destruct H as [<-|[]]; auto.
  - destruct lk; [contradiction|]. destruct H as [<-|[]]. auto.
  - destruct res; destruct H as [<-|[]]; auto.
  - contradiction.
  - contradiction.
Qed.

Lemma collector_step_tasks v s s' :
  In s' (collector_next v s) -> list_ s' = list_ s /\ tasks s' = tasks s.
Proof.
  destruct s as [w fc res lk m h c l ts out reg comp snt].
  unfold collector_next. simpl. intros H.
  destruct c; simpl in *; try contradiction.
  - destruct lk; [contradiction|]. destruct H as [<-|[]]. auto.
  - destruct fc; [|contradiction]. destruct H as [<-|[]]. auto.
  - destruct l, v; try contradiction; try (destruct H as [<-|[]]; auto).
    destruct res; [contradiction|]. destruct H as [<-|[]]. auto.
  - destruct H as [<-|[]]. auto.
Qed.

Lemma ordered_reachable v Args root s :
  NoDup (tree_paths (searchDir_of Args) root) ->
  reachable v Args root s -> ordered (tasks s) (list_ s).
Proof.
  intros D. induction 1 as [|s s' R IH S].
  - split; [constructor | split; constructor].
  - pose proof (reachable_Inv _ _ _ _ R) as I.
    apply step_cases in S as (X & [S | [S | (a & t & b & E & S)]]).
    + apply main_step_tasks in S as (L & [T | (ss & sd & M & T)]).
      * rewrite L, T. exact IH.
      * unfold Inv in I. rewrite M in I.
        destruct I as (_ & _ & A2 & _ & _ & (T0 & L0 & _) & _).
        rewrite L, T, T0, L0. simpl.
        apply nth_error_nth_string in A2. fold (searchDir_of Args) in A2. subst sd.
        split; [|split].
        -- simpl. rewrite app_nil_r.
           replace (task_paths (ParseDir (searchDir_of Args) ss root))
             with (tree_paths (searchDir_of Args) root); [exact D|].
           destruct root as [? ?|? [?|]]; reflexivity.
        -- constructor; [|constructor].
           destruct root as [? ?|? [?|]]; simpl; intros m [].
        -- constructor.
    + apply collector_step_tasks in S as (L & T). rewrite L, T. exact IH.
    + eapply ordered_task; eauto.
Qed.

(** When the files of the tree are read under pairwise different paths, as
    the files of a file system are, the matches of one file keep their file
    order in the collector's list and in a list that [main] receives: of two
    matches with the same path, the one with the smaller index comes
    first, whatever the interleaving of the tasks. *)
Theorem matches_of_a_file_in_order v Args root s :
  NoDup (tree_paths (searchDir_of Args) root) ->
  reachable v Args root s ->
  in_file_order (list_ s)
  /\ (forall hs, hits s = Some hs -> in_file_order hs).
Proof.
  intros D R.
  destruct (ordered_reachable v Args root s D R) as (_ & _ & O).
  split; [exact O|]. intros hs H.
  destruct (received_list v Args root s hs R H) as (-> & _).
  apply reachable_Inv in R. destruct R as [-> _]. exact O.
Qed.

Lemma matches_of_a_file_in_order_witness :
  in_file_order one_file_hits.
Proof.
  destruct (matches_of_a_file_in_order Unbuffered one_file_args one_file_tree
              (run Unbuffered one_file_args one_file_tree (first_enabled 40) init))
    as [_ H].
  - constructor; [intros []|constructor].
  - apply run_reachable, reach_init.
  - apply H. reflexivity.
Defined.

(** ** The mutex of part_000 *)

(** In part_000 the mutex is held exactly while the collector is between its
    [Lock] and its [Unlock] or [main] is past its [Lock], and never by both:
    [main] gets the mutex only when the collector has released it or has not
    taken it yet. *)
Theorem mutex_excludes Args root s :
  reachable Mutex Args root s ->
  resultsLock s = collector_holds s || main_holds s
  /\ collector_holds s && main_holds s = false.
Proof.
  intros R. apply reachable_Inv in R.
  destruct s as [w fc res lk m h c l ts out reg comp snt].
  unfold collector_holds, main_holds.
  destruct m; unfold_inv; destruct R as [_ R];
    [injection R as -> -> -> -> -> -> -> -> -> -> -> ->; auto | ..];
    decompose [and or] R; subst; simpl; auto; discriminate.
Qed.

Lemma mutex_excludes_witness :
  let s := run Mutex one_file_args one_file_tree (first_enabled 12) init in
  resultsLock s = true /\ collector_holds s = true /\ main_holds s = false.
Proof.
  intros s.
  destruct (mutex_excludes one_file_args one_file_tree s) as [_ X].
  - apply run_reachable, reach_init.
  - split; [reflexivity|]. split; [reflexivity|].
    apply andb_false_iff in X as [X|X]; [discriminate X | exact X].
Defined.

(** ** After [close(found)] *)




(** ** How many tasks are alive *)

(** No run has more task goroutines alive than the tree has entries, and
    the wait group counter never exceeds that number either. *)
Theorem live_tasks_bounded v Args root s :
  reachable v Args root s ->
  List.length (tasks s) <= size root /\ (wg s <= Z.of_nat (size root))%Z.
Proof.
  intros R. apply reachable_Inv in R.
  pose proof (size_pos root) as SP.
  destruct s as [w fc res lk m h c l ts out reg comp snt].
  destruct m; unfold_inv; destruct R as [_ R];
    [injection R as -> -> -> -> -> -> -> -> -> -> -> ->; simpl; lia | ..];
    try (decompose [and] R; subst; simpl; lia).
  destruct R as (_ & _ & _ & W & G & U & _).
  assert (List.length ts <= list_sum (map owed ts)).
  { clear. induction ts as [|t ts IH]; simpl; [lia|].
    pose proof (owed_pos t). lia. }
  lia.
Qed.

Lemma live_tasks_bounded_witness :
  let s := run Unbuffered one_file_args one_file_tree (first_enabled 8) init in
  List.length (tasks s) <= 2.
Proof.
  intros s.
  apply (live_tasks_bounded Unbuffered one_file_args one_file_tree s).
  apply run_reachable, reach_init.
Defined.

(** ** The shape of what [parseFile] reports *)

Lemma Split_length s sep : List.length (Split s sep) = S (count_byte sep s).
Proof.
  induction s as [|c s IH]; simpl; [reflexivity|].
  destruct (Ascii.eqb c sep); simpl.
  - rewrite IH. reflexivity.
  - pose proof (Split_nonempty s sep) as N.
    destruct (Split s sep); [contradiction|]. simpl in *. exact IH.
Qed.

Lemma scan_from_increasing p s lines : forall i,
  ForallOrdPairs (fun a b => (index a < index b)%Z) (scan_from p s i lines)
  /\ Forall (fun m => (i <= index m)%Z) (scan_from p s i lines).
Proof.
  induction lines as [|l lines IH]; intros i; simpl.
  - split; constructor.
  - destruct (IH (i + 1)%Z) as [O B].
    assert (B' : Forall (fun m => (i <= index m)%Z) (scan_from p s (i + 1) lines)).
    { eapply Forall_impl; [|exact B]. simpl. intros. lia. }
    destruct (Contains l s); [|auto].
    split.
    + constructor; [|exact O].
      eapply Forall_impl; [|exact B]. simpl. intros. lia.
    + constructor; [simpl; lia | exact B'].
Qed.

Lemma scan_from_length p s lines : forall i,
  List.length (scan_from p s i lines) <= List.length lines.
Proof.
  induction lines as [|l lines IH]; intros i; simpl; [lia|].
  specialize (IH (i + 1)%Z). destruct (Contains l s); simpl; lia.
Qed.

(** What [parseFile] reports for a file comes with strictly increasing
    indices, so no line is reported twice; there are at most as many matches
    as lines, one more than the file has line feeds; every match carries the
    path given to [parseFile], an index from 0 up to the number of line
    feeds, and a line without a line feed. *)
Theorem scan_shape p substr fileData :
  ForallOrdPairs (fun a b => (index a < index b)%Z) (scan p substr fileData)
  /\ List.length (scan p substr fileData) <= S (count_byte LF fileData)
  /\ (forall m, In m (scan p substr fileData) ->
        path m = p
        /\ (0 <= index m <= Z.of_nat (count_byte LF fileData))%Z
        /\ lacks LF (line m) = true).
Proof.
  split; [apply scan_from_increasing|]. split.
  - unfold scan. rewrite <- Split_length. apply scan_from_length.
  - intros m I. apply scan_In in I as (P & I0 & N & _).
    split; [exact P|]. split.
    + assert (L : Z.to_nat (index m) < List.length (Split fileData LF))
        by (apply nth_error_Some; congruence).
      rewrite Split_length in L. lia.
    + apply nth_error_In in N.
      pose proof (Split_lacks fileData LF) as F.
      rewrite Forall_forall in F. apply F. exact N.
Qed.

(** ** The list is handed over once *)

Lemma step_keeps_hits v Args root s s' hs :
  reachable v Args root s -> hits s = Some hs ->
  step v Args root s s' -> hits s' = Some hs.
Proof.
  intros R H S. apply reachable_Inv in R.
  apply step_cases in S as (X & [S | [S | (a & t & b & E & S)]]).
  - destruct s as [w fc res lk m h c l ts out reg comp snt].
    unfold main_next in S. simpl in *. subst h.
    destruct m; unfold_inv; destruct R as [_ R];
      try discriminate R; try (decompose [and] R; discriminate); try contradiction.
    destruct rest; destruct S as [<-|[]]; reflexivity.
  - destruct s as [w fc res lk m h c l ts out reg comp snt].
    unfold collector_next in S. simpl in *.
    destruct c; simpl in *; try contradiction.
    + destruct lk; [contradiction|]. destruct S as [<-|[]]. exact H.
    + destruct fc; [|contradiction]. destruct S as [<-|[]]. exact H.
    + destruct l, v; try contradiction; try (destruct S as [<-|[]]; exact H).
      destruct res; [contradiction|]. destruct S as [<-|[]]. exact H.
    + destruct S as [<-|[]]. exact H.
  - destruct s as [w fc res lk m h c l ts out reg comp snt]. simpl in *.
    destruct (task_action t); simpl in S.
    + destruct S as [<-|[]]. exact H.
    + destruct S as [<-|[]]. exact H.
    + destruct S as [<-|[]]. exact H.
    + destruct c; try contradiction. destruct fc; [contradiction|].
      destruct S as [<-|[]]. exact H.
    + contradiction.
    + destruct S as [<-|[]]. exact H.
Qed.

(** [main] receives the list at most once: a list that it has received is
    still the one it holds in every later state of the run. *)
Theorem list_received_once v Args root s s' hs :
  reachable v Args root s -> hits s = Some hs ->
  later v Args root s s' -> hits s' = Some hs.
Proof.
  intros R H L. induction L as [|s' s'' L IH S]; [exact H|].
  eapply step_keeps_hits; [|exact IH|exact S].
  eapply later_reachable; eauto.
Qed.

Lemma list_received_once_witness :
  let s := run Unbuffered one_file_args one_file_tree (first_enabled 17) init in
  let s' := run Unbuffered one_file_args one_file_tree (first_enabled 3) s in
  hits s' = Some one_file_hits.
Proof.
  intros s s'.
  apply (list_received_once Unbuffered one_file_args one_file_tree s s').
  - apply run_reachable, reach_init.
  - reflexivity.
  - apply run_later.
Defined.

(** ** The matches of each file, as a whole *)

Lemma of_file_app q l1 l2 : of_file q (l1 ++ l2) = of_file q l1 ++ of_file q l2.
Proof. apply filter_app. Qed.

Lemma of_file_none q l :
  (forall m, In m l -> path m <> q) -> of_file q l = [].
Proof.
  induction l as [|m l IH]; intros H; simpl; [reflexivity|].
  destruct (String.eqb_spec (path m) q) as [E|E].
  - exfalso. apply (H m); [left; reflexivity | exact E].
  - apply IH. intros m' I. apply H. right. exact I.
Qed.

Lemma of_file_all q l :
  (forall m, In m l -> path m = q) -> of_file q l = l.
Proof.
  induction l as [|m l IH]; intros H; simpl; [reflexivity|].
  rewrite (H m (or_introl eq_refl)), String.eqb_refl. f_equal.
  apply IH. intros m' I. apply H. right. exact I.
Qed.

Lemma of_file_scan q s fileData : of_file q (scan q s fileData) = scan q s fileData.
Proof. apply of_file_all. intros m I. apply scan_In in I. tauto. Qed.

Lemma of_file_permutation q l1 l2 :
  Permutation l1 l2 -> Permutation (of_file q l1) (of_file q l2).
Proof.
  unfold of_file. induction 1 as [|x l1 l2 P IH|x y l|l1 l2 l3 P1 IH1 P2 IH2]; simpl.
  - constructor.
  - destruct (String.eqb (path x) q); [constructor|]; exact IH.
  - destruct (String.eqb (path x) q), (String.eqb (path y) q);
      try apply Permutation_refl. constructor.
  - eapply Permutation_trans; eauto.
Qed.

Lemma of_file_increasing q l :
  in_file_order l ->
  ForallOrdPairs (fun a b => (index a < index b)%Z) (of_file q l).
Proof.
  unfold in_file_order, of_file. induction 1 as [|m l Hm Hl IH]; simpl; [constructor|].
  destruct (String.eqb_spec (path m) q) as [E|E]; [|exact IH].
  constructor; [|exact IH].
  apply Forall_forall. intros m' I. apply filter_In in I as [I E'].
  apply String.eqb_eq in E'. rewrite Forall_forall in Hm.
  apply Hm; [exact I | congruence].
Qed.

(** Two lists with strictly increasing indices that hold the same matches
    are the same list. *)
Lemma increasing_permutation_eq l1 : forall l2,
  ForallOrdPairs (fun a b => (index a < index b)%Z) l1 ->
  ForallOrdPairs (fun a b => (index a < index b)%Z) l2 ->
  Permutation l1 l2 -> l1 = l2.
Proof.
  induction l1 as [|a l1 IH]; intros l2 O1 O2 P.
  - apply Permutation_nil in P. auto.
  - destruct l2 as [|b l2]; [apply Permutation_sym, Permutation_nil in P; discriminate|].
    inversion O1 as [|? ? A1 O1']; subst. inversion O2 as [|? ? A2 O2']; subst.
    rewrite Forall_forall in A1, A2.
    assert (E : a = b).
    { assert (I1 : In a (b :: l2)) by (apply (Permutation_in _ P); left; reflexivity).
      assert (I2 : In b (a :: l1))
        by (apply (Permutation_in _ (Permutation_sym P)); left; reflexivity).
      destruct I1 as [I1|I1]; [auto|]. destruct I2 as [I2|I2]; [auto|].
      specialize (A1 _ I2). specialize (A2 _ I1). lia. }
    subst b. f_equal. apply IH; auto.
    eapply Permutation_cons_inv. exact P.
Qed.

Lemma entry_matches_paths s m f : forall p,
  In m (entry_matches s f p) -> In (path m) (entry_paths f p).
Proof.
  induction f as [name [fileData|]|name|name entries IH] using node_ind;
    intros p; simpl; try contradiction.
  - intros I. apply scan_In in I as (P & _). left. auto.
  - rewrite Forall_forall in IH. intros I.
    apply in_flat_map in I as (e & E & I). apply in_flat_map. eauto.
Qed.

Lemma entry_files_paths q fileData f : forall p,
  In (q, fileData) (entry_files f p) -> In q (entry_paths f p).
Proof.
  induction f as [name [d|]|name|name entries IH] using node_ind;
    intros p; simpl; try contradiction.
  - intros [[= <- <-]|[]]. left. reflexivity.
  - rewrite Forall_forall in IH. intros I.
    apply in_flat_map in I as (e & E & I). apply in_flat_map. eauto.
Qed.

(** Among the entries of one directory, the matches under the path of a file
    are those of that file. *)
Lemma of_file_entries s q fileData entries :
  Forall (fun f => forall p, NoDup (entry_paths f p) ->
                   In (q, fileData) (entry_files f p) ->
                   of_file q (entry_matches s f p) = scan q s fileData) entries ->
  forall p, NoDup (entries_paths p entries) ->
  In (q, fileData) (flat_map (fun e => entry_files e p) entries) ->
  of_file q (entries_matches p s entries) = scan q s fileData.
Proof.
  unfold entries_paths, entries_matches.
  induction 1 as [|e es He Hes IH]; intros p N I; simpl in *; [contradiction|].
  rewrite of_file_app. apply in_app_or in I as [I|I].
  - rewrite (He p (NoDup_app_remove_r _ _ N) I).
    rewrite of_file_none; [apply app_nil_r|].
    intros m M <-. apply in_flat_map in M as (e' & E' & M).
    apply entry_matches_paths in M. apply entry_files_paths in I.
    apply (NoDup_not_both _ _ (path m) N I). apply in_flat_map. eauto.
  - rewrite (IH p (NoDup_app_remove_l _ _ N) I).
    rewrite of_file_none; [reflexivity|].
    intros m M <-. apply entry_matches_paths in M.
    apply in_flat_map in I as (e' & E' & I). apply entry_files_paths in I.
    apply (NoDup_not_both _ _ (path m) N M). apply in_flat_map. eauto.
Qed.

Lemma of_file_entry s q fileData f : forall p,
  NoDup (entry_paths f p) -> In (q, fileData) (entry_files f p) ->
  of_file q (entry_matches s f p) = scan q s fileData.
Proof.
  induction f as [name [d|]|name|name entries IH] using node_ind;
    intros p N I; simpl in *; try contradiction.
  - destruct I as [[= <- <-]|[]]. apply of_file_scan.
  - apply (of_file_entries s q fileData entries IH); assumption.
Qed.

Lemma of_file_tree s searchDir q fileData d :
  NoDup (tree_paths searchDir d) -> In (q, fileData) (tree_files searchDir d) ->
  of_file q (tree_matches s searchDir d) = scan q s fileData.
Proof.
  unfold tree_paths, tree_files, tree_matches.
  destruct d as [name data|name [entries|]]; simpl; try contradiction.
  intros N I.
  apply (of_file_entries s q fileData entries); try assumption.
  apply Forall_forall. intros f _ p. apply of_file_entry.
Qed.

(** When the files of the tree are read under pairwise different paths, a
    list that [main] receives holds, under the path of each file read, just
    what [parseFile] reports for that file, in the same order: the matching
    lines of the file from its first to its last, whatever the interleaving
    of the tasks. *)
Theorem each_file_as_scanned v Args root s hs :
  NoDup (tree_paths (searchDir_of Args) root) ->
  reachable v Args root s -> hits s = Some hs ->
  forall q fileData,
    In (q, fileData) (tree_files (searchDir_of Args) root) ->
    of_file q hs = scan q (searchString_of Args) fileData.
Proof.
  intros D R H q fileData F.
  destruct (received_list v Args root s hs R H) as (E & P & _).
  destruct (ordered_reachable v Args root s D R) as (_ & _ & O).
  assert (L : list_ s = hs).
  { apply reachable_Inv in R. destruct R as [R _]. congruence. }
  rewrite L in O.
  rewrite <- (of_file_tree (searchString_of Args) _ q fileData root D F).
  apply increasing_permutation_eq.
  - apply of_file_increasing. exact O.
  - rewrite (of_file_tree (searchString_of Args) _ q fileData root D F).
    apply scan_from_increasing.
  - apply of_file_permutation. apply Permutation_sym. exact P.
Qed.

Lemma each_file_as_scanned_witness :
  of_file "d/a.txt" one_file_hits
  = scan "d/a.txt" "hello" ("hello" ^^ nl ^^ "world" ^^ nl ^^ "hello again").
Proof.
  apply (each_file_as_scanned Mutex one_file_args one_file_tree
           (run Mutex one_file_args one_file_tree (first_enabled 40) init)).
  - constructor; [intros []|constructor].
  - apply run_reachable, reach_init.
  - reflexivity.
  - left. reflexivity.
Defined.

(** ** The path of an entry *)

(** [filepath.Join] gives the clean path of an entry, whatever way the
    search directory is written. *)
Lemma filepath_Join_examples :
  map (fun dir => filepath_Join dir "a.txt") ["d"; "."; "d/"; "./d"; "/"; ""; "d/../e"]
  = ["d/a.txt"; "a.txt"; "d/a.txt"; "d/a.txt"; "/a.txt"; "a.txt"; "e/a.txt"].
Proof. reflexivity. Qed.

(** ** What a failed read does to the matches and to the wait group *)

Lemma action_error_accounts t :
  task_action t = SendError -> unregistered t = 0 /\ owed t = 1.
Proof.
  destruct t as [p s [? [?|]|? ?]|p s i [|l ls]|p s [? ?|? [?|]]|p s [|f r]|p s f r];
    simpl; try discriminate; auto.
Qed.

(** Where every goroutine is asleep with [main] in [wg.Wait()], the tasks
    left are all inside [check]. *)
Lemma asleep_tasks_in_check v Args root s :
  reachable v Args root s -> halted v Args root s = true -> main s = MWait ->
  Forall (fun t => task_action t = SendError) (tasks s).
Proof.
  intros R H M.
  assert (X : exit_status s = None) by (unfold exit_status; rewrite M; reflexivity).
  destruct (halted_parts _ _ _ _ H X) as (_ & HC & HT).
  apply reachable_Inv in R. unfold Inv in R. rewrite M in R.
  destruct R as (_ & _ & C & (F & _) & _).
  apply Forall_forall. intros t T. apply in_split in T as (a & b & T).
  assert (N : task_apply s a b (task_action t) = []).
  { destruct (task_apply s a b (task_action t)) as [|s' l] eqn:E; [reflexivity|].
    exfalso. assert (I : In s' (tasks_next s)).
    { eapply tasks_next_intro; [exact T|]. rewrite E. left. reflexivity. }
    rewrite HT in I. exact I. }
  destruct (task_action t) eqn:Act; simpl in N; try discriminate; auto.
  exfalso. rewrite F in N.
  unfold collecting in C. unfold collector_next in HC.
  destruct v.
  - destruct C as [C _]. rewrite C in N. discriminate.
  - destruct C as [(C1 & C2 & _) | (C1 & _)].
    + rewrite C1, C2 in HC. discriminate.
    + rewrite C1 in N. discriminate.
Qed.

(** C1.  Matches that have been sent are lost when a read of the tree fails:
    every run of either program then ends with every goroutine asleep and
    [main] in [wg.Wait()]; all the matches of the files that can be read
    have been sent on [found] and are in the collector's list, each once,
    but the collector never publishes a list: [results] is empty, [main] has
    received none and has printed nothing. *)
Theorem sent_matches_never_published v Args root :
  3 <= List.length Args -> searchable root = false ->
  ends_in v Args root
    (fun s => deadlocked v Args root s = true /\ main s = MWait
              /\ Permutation (tree_matches (searchString_of Args) (searchDir_of Args) root)
                   (sent s)
              /\ list_ s = sent s
              /\ collector s <> CEnd /\ results s = None /\ hits s = None
              /\ stdout s = [])
    init.
Proof.
  intros L S.
  eapply ends_in_weaken; [apply runs_stuck_on_error; assumption|].
  intros s (R & D & M) H.
  pose proof (asleep_tasks_in_check _ _ _ _ R H M) as A.
  apply reachable_Inv in R. unfold Inv in R. rewrite M in R.
  destruct R as (E & _ & C & (_ & Rs & Hs & O) & (_ & _ & _ & P & _)).
  assert (Z : flat_map pending (tasks s) = []).
  { clear -A. induction A as [|t ts At _ IH]; [reflexivity|].
    simpl. rewrite (action_error_pending _ At), IH. reflexivity. }
  rewrite Z, app_nil_r, <- E in P.
  repeat split; auto.
  unfold collecting in C. destruct v; intuition congruence.
Qed.

Lemma sent_matches_never_published_witness :
  ends_in Unbuffered one_file_args mixed_tree
    (fun s => deadlocked Unbuffered one_file_args mixed_tree s = true /\ main s = MWait
              /\ Permutation [mkFound "d/a.txt" 0 "hello"] (sent s)
              /\ list_ s = sent s
              /\ collector s <> CEnd /\ results s = None /\ hits s = None
              /\ stdout s = [])
    init.
Proof.
  apply (sent_matches_never_published Unbuffered one_file_args mixed_tree).
  - simpl. lia.
  - reflexivity.
Defined.

(** C8.  The fan-in is not complete when a read of the tree fails: every run
    of either program then ends with every goroutine asleep and [main] in
    [wg.Wait()]; every entry of the tree has been registered, but the tasks
    inside [check] have not completed, so fewer completions than entries
    have been seen, the wait group counter is above zero and [found] is
    never closed. *)
Theorem failed_read_breaks_fan_in v Args root :
  3 <= List.length Args -> searchable root = false ->
  ends_in v Args root
    (fun s => deadlocked v Args root s = true /\ main s = MWait
              /\ found_closed s = false
              /\ registered s = size root
              /\ completed s + List.length (tasks s) = size root
              /\ completed s < size root
              /\ (0 < wg s)%Z)
    init.
Proof.
  intros L S.
  eapply ends_in_weaken; [apply runs_stuck_on_error; assumption|].
  intros s (R & D & M) H.
  pose proof (asleep_tasks_in_check _ _ _ _ R H M) as A.
  apply reachable_Inv in R. unfold Inv in R. rewrite M in R.
  destruct R as (_ & _ & _ & (F & _) & (W & G & U & _ & K)).
  assert (Z : list_sum (map unregistered (tasks s)) = 0
              /\ list_sum (map owed (tasks s)) = List.length (tasks s)).
  { clear -A. induction A as [|t ts At _ [IH1 IH2]]; [auto|].
    destruct (action_error_accounts _ At) as [U O].
    simpl. rewrite U, O, IH1, IH2. auto. }
  destruct Z as [Z1 Z2]. rewrite Z1 in U. rewrite Z2 in *.
  assert (N : tasks s <> []).
  { rewrite S in K. simpl in K. intros E. rewrite E in K. discriminate. }
  assert (1 <= List.length (tasks s)) by (destruct (tasks s); [contradiction | simpl; lia]).
  repeat split; auto; lia.
Qed.

Lemma failed_read_breaks_fan_in_witness :
  ends_in Mutex one_file_args unreadable_tree
    (fun s => deadlocked Mutex one_file_args unreadable_tree s = true /\ main s = MWait
              /\ found_closed s = false
              /\ registered s = 2
              /\ completed s + List.length (tasks s) = 2
              /\ completed s < 2
              /\ (0 < wg s)%Z)
    init.
Proof.
  apply (failed_read_breaks_fan_in Mutex one_file_args unreadable_tree).
  - simpl. lia.
  - reflexivity.
Defined.

(** ** The fan-in when every read succeeds *)

(** When both arguments are there and no read of the tree fails, every run
    of either program gets to [close(found)] and ends after it: at its end
    [found] is closed, every entry of the tree, its top included, has been
    registered once and has completed, the wait group counter is zero and no
    task is left. *)
Theorem fan_in_reached v Args root :
  3 <= List.length Args -> searchable root = true ->
  ends_in v Args root
    (fun s => found_closed s = true
              /\ registered s = size root /\ completed s = size root
              /\ wg s = 0%Z /\ tasks s = [])
    init.
Proof.
  intros L S.
  eapply ends_in_weaken; [apply reachable_ends, reach_init|].
  intros s R H.
  pose proof (reachable_Inv _ _ _ _ R) as I.
  destruct (halted_cases _ _ _ _ R H) as [E | [(i & len & E) | [(E & U) | (V & E & C & N)]]];
    unfold Inv in I; rewrite E in *.
  - destruct I as (_ & _ & (T & W & G & K & _) & F & _). auto.
  - exfalso. intuition lia.
  - congruence.
  - destruct I as (_ & _ & _ & (T & W & G & K & _) & F & _). auto.
Qed.

Lemma fan_in_reached_witness :
  ends_in Unbuffered one_file_args one_file_tree
    (fun s => found_closed s = true
              /\ registered s = 2 /\ completed s = 2
              /\ wg s = 0%Z /\ tasks s = [])
    init.
Proof.
  apply (fan_in_reached Unbuffered one_file_args one_file_tree).
  - simpl. lia.
  - reflexivity.
Defined.

(** A search of the current directory, written [.], reports its file under
    the clean path [a.txt]. *)
Lemma search_of_the_current_directory :
  let s := run Unbuffered ["mgrep"; "hello"; "."] one_file_tree (first_enabled 40) init in
  main s = MExit
  /\ hits s = Some [mkFound "a.txt" 0 "hello"; mkFound "a.txt" 2 "hello again"]
  /\ stdout s =
     ["Hit found in file a.txt" ^^ nl ^^ "Line 0: " ^^ nl ^^ "hello" ^^ nl ^^ nl;
      "Hit found in file a.txt" ^^ nl ^^ "Line 2: " ^^ nl ^^ "hello again" ^^ nl ^^ nl].
Proof. vm_compute. auto. Qed.
